(** * monorepo-dependency-graph: the directed-graph engine of [src/main.ts]

  A shallow embedding of the class [DirectedGraph<T>] (and of the [Mode]
  enum and the pipeline of [main]) together with the properties stated
  about them.

  JavaScript's [Map] and [Set] iterate in insertion order and
  [topoSort] breaks ties by that order, so a [Map<K,V>] is an
  association list with the oldest key first and a [Set<T>] a
  duplicate-free list with the oldest element first. *)

From stdpp Require Import base decidable option list relations well_founded strings.
From Stdlib Require Import ZArith Lia Wellfounded Relation_Operators Ascii.

Set Default Proof Using "Type*".

(** ** JavaScript containers *)

Section Containers.
Context {K : Type} `{EqDecision K}.

(** [Set.prototype.has]. *)
Definition set_has (s : list K) (x : K) : bool := bool_decide (x ∈ s).

(** [Set.prototype.add]: a new element goes last, a known one changes
    nothing. *)
Definition set_add (s : list K) (x : K) : list K :=
  if set_has s x then s else s ++ [x].

(** [Map.prototype.get]; [None] is JavaScript's [undefined]. *)
Fixpoint map_get {V} (m : list (K * V)) (k : K) : option V :=
  match m with
  | [] => None
  | (k', v) :: m' => if decide (k = k') then Some v else map_get m' k
  end.

(** [Map.prototype.has]. *)
Definition map_has {V} (m : list (K * V)) (k : K) : bool :=
  bool_decide (is_Some (map_get m k)).

(** [Map.prototype.set]: a known key keeps its place, a new key goes
    last. *)
Fixpoint map_set {V} (m : list (K * V)) (k : K) (v : V) : list (K * V) :=
  match m with
  | [] => [(k, v)]
  | (k', v') :: m' =>
      if decide (k = k') then (k, v) :: m' else (k', v') :: map_set m' k v
  end.

(** [Map.prototype.keys], as a list. *)
Definition map_keys {V} (m : list (K * V)) : list K := m.*1.

(** [Array.prototype.pop]: the array without its last element, and that
    element; [None] on the empty array. *)
Fixpoint pop (a : list K) : option (list K * K) :=
  match a with
  | [] => None
  | x :: a' =>
      match pop a' with
      | None => Some ([], x)
      | Some (front, y) => Some (x :: front, y)
      end
  end.
End Containers.

(** ** JavaScript values and exceptions *)

(** The numbers held by the in-degree table: integers, and [NaN], which is
    what [undefined - 1] evaluates to. *)
Inductive number : Type :=
| Int (z : Z)
| NaN.

#[global] Instance number_eq_dec : EqDecision number.
Proof. solve_decision. Defined.

(** [x || 0] on the result of a [Map.get]: [undefined], [NaN] and [0] are
    falsy. *)
Definition or_zero (x : option number) : Z :=
  match x with
  | Some (Int z) => z
  | _ => 0
  end.

(** [x! - 1] on the result of a [Map.get]: [undefined - 1] and [NaN - 1]
    are [NaN]. *)
Definition minus_one (x : option number) : number :=
  match x with
  | Some (Int z) => Int (z - 1)
  | _ => NaN
  end.

(** What a call can throw. *)
Inductive exception : Type :=
| TypeError
| AssertionError (message : string)
| Error (message : string).

(** The outcome of a call: a value, or an exception that ends it. *)
Inductive result (A : Type) : Type :=
| Ok (a : A)
| Throw (e : exception).
Arguments Ok {A} a.
Arguments Throw {A} e.

#[global] Instance exception_eq_dec : EqDecision exception.
Proof. solve_decision. Defined.

#[global] Instance result_eq_dec {A} `{EqDecision A} : EqDecision (result A).
Proof. solve_decision. Defined.

(** Sequencing: an exception skips what follows ([x ← r; k]). *)
#[global] Instance result_bind : MBind result := λ A B k r,
  match r with
  | Ok a => k a
  | Throw e => Throw e
  end.

(** ** [while] loops *)

Section While.
Context {S R : Type}.

(** One turn of a loop either goes on with a new state ([inl]) or leaves
    the loop with a result ([inr]). *)
Context (turn : S → S + R).

(** [s'] is the state one turn after [s]. *)
Definition iterates : relation S := λ s' s, turn s = inl s'.

(** One turn, with [continue] standing for the rest of the loop. *)
Definition while_turn (s : S) (continue : ∀ s', iterates s' s → R) : R :=
  match turn s as t return turn s = t → R with
  | inl s' => λ E, continue s' E
  | inr r => λ _, r
  end eq_refl.

(** The loop, for a body whose turns cannot go on for ever. The proof of
    that is guarded, so that the loop evaluates on closed states without
    looking into it. *)
Definition while (terminates : well_founded iterates) : S → R :=
  Fix (wf_guard 32 terminates) (λ _, R) while_turn.

Lemma while_turn_ext s (f g : ∀ s', iterates s' s → R) :
  (∀ s' E E', f s' E = g s' E') → while_turn s f = while_turn s g.
Proof.
  intros Hfg. unfold while_turn.
  cut (∀ t (E : turn s = t),
    match t as t0 return turn s = t0 → R with
    | inl s' => λ E, f s' E | inr r => λ _, r end E
    = match t as t0 return turn s = t0 → R with
      | inl s' => λ E, g s' E | inr r => λ _, r end E).
  { intros Hcut. exact (Hcut (turn s) eq_refl). }
  intros [s'|r] E; [apply Hfg | done].
Qed.

Lemma while_turn_const s (k : S → R) :
  while_turn s (λ s' _, k s')
  = match turn s with inl s' => k s' | inr r => r end.
Proof.
  unfold while_turn.
  cut (∀ t (E : turn s = t),
    match t as t0 return turn s = t0 → R with
    | inl s' => λ _, k s' | inr r => λ _, r end E
    = match t with inl s' => k s' | inr r => r end).
  { intros Hcut. exact (Hcut (turn s) eq_refl). }
  by intros [s'|r] E.
Qed.

Lemma while_unfold terminates s :
  while terminates s
  = match turn s with inl s' => while terminates s' | inr r => r end.
Proof.
  rewrite <-while_turn_const. unfold while.
  apply (Fix_unfold_rel _ (λ _, R) (λ _, eq)).
  intros. by apply while_turn_ext.
Qed.

(** The invariant rule: what holds of the first state and is kept by
    every turn yields the postcondition of whatever leaves the loop. *)
Lemma while_rule (I : S → Prop) (Q : R → Prop) terminates :
  (∀ s, I s → match turn s with inl s' => I s' | inr r => Q r end) →
  ∀ s, I s → Q (while terminates s).
Proof.
  intros Hturn s. induction (terminates s) as [s _ IH]. intros Hs.
  rewrite while_unfold. specialize (Hturn s Hs).
  destruct (turn s) as [s'|r] eqn:E; [|done]. by apply IH.
Qed.
End While.

(** ** The class [Sets] *)

Module Sets.
(** [Sets.addAll(s, xs)]: add every element of [xs], in order. *)
Definition addAll {T} `{EqDecision T} (s xs : list T) : list T :=
  foldl set_add s xs.
End Sets.

(** ** Measures of the loops *)

Section Measures.
Context {K : Type} `{EqDecision K}.

(** The keys of [m] that are not in [seen]. *)
Definition unseen_keys {V} (m : list (K * V)) (seen : list K) : nat :=
  length (filter (λ k, k ∉ seen) (map_keys m)).

(** The entries of a work list that are in [seen]. *)
Definition seen_entries (toVisit seen : list K) : nat :=
  length (filter (λ k, k ∈ seen) toVisit).

(** The entries of an in-degree table that hold a positive integer. *)
Definition positive (c : number) : Prop :=
  match c with
  | Int z => (0 < z)%Z
  | NaN => False
  end.

#[global] Instance positive_dec c : Decision (positive c).
Proof. destruct c; simpl; apply _. Defined.

Definition positive_entries (inDegrees : list (K * number)) : nat :=
  length (filter (λ e, positive e.2) inDegrees).

Lemma elem_of_set_add (s : list K) (x y : K) :
  y ∈ set_add s x ↔ y ∈ s ∨ y = x.
Proof.
  unfold set_add, set_has. case_bool_decide.
  - split; [by left | intros [?| ->]; done].
  - rewrite elem_of_app, list_elem_of_singleton. done.
Qed.

Lemma set_add_seen (s : list K) (x : K) : x ∈ s → set_add s x = s.
Proof. intros Hx. unfold set_add, set_has. by rewrite bool_decide_true. Qed.

Lemma map_get_Some_key {V} (m : list (K * V)) k v :
  map_get m k = Some v → k ∈ map_keys m.
Proof.
  unfold map_keys. induction m as [|[k' v'] m IH]; simpl; [done|].
  case_decide; [subst; intros _; apply list_elem_of_here|].
  intros Hm. apply list_elem_of_further, IH, Hm.
Qed.

Lemma map_get_Some_elem_of {V} (m : list (K * V)) k v :
  map_get m k = Some v → (k, v) ∈ m.
Proof.
  induction m as [|[k' v'] m IH]; simpl; [done|].
  case_decide; [intros [= ->]; subst; apply list_elem_of_here|].
  intros Hm. apply list_elem_of_further, IH, Hm.
Qed.

Lemma map_get_None_key {V} (m : list (K * V)) k :
  map_get m k = None ↔ k ∉ map_keys m.
Proof.
  unfold map_keys. induction m as [|[k' v'] m IH]; simpl.
  - split; [intros _; apply not_elem_of_nil | done].
  - rewrite not_elem_of_cons. case_decide as Hk; [subst; split; [done | by intros []]|].
    rewrite IH. split; [done | by intros []].
Qed.

Lemma filter_none {A} (P : A → Prop) `{!∀ x, Decision (P x)} (l : list A) :
  (∀ x, x ∈ l → ¬ P x) → filter P l = [].
Proof.
  induction l as [|a l IH]; intros Hl; [done|].
  rewrite filter_cons_False by (apply Hl, list_elem_of_here).
  apply IH. intros x Hx. by apply Hl, list_elem_of_further.
Qed.

Lemma filter_iff_in {A} (P Q : A → Prop)
    `{!∀ x, Decision (P x)} `{!∀ x, Decision (Q x)} (l : list A) :
  (∀ x, x ∈ l → P x ↔ Q x) → filter P l = filter Q l.
Proof.
  induction l as [|a l IH]; intros HPQ; [done|].
  rewrite !filter_cons, IH by (intros x Hx; by apply HPQ, list_elem_of_further).
  apply decide_ext, HPQ, list_elem_of_here.
Qed.

Lemma filter_length_le_impl {A} (P Q : A → Prop)
    `{!∀ x, Decision (P x)} `{!∀ x, Decision (Q x)} (l : list A) :
  (∀ x, x ∈ l → P x → Q x) → length (filter P l) ≤ length (filter Q l).
Proof.
  induction l as [|a l IH]; intros HPQ; [done|].
  rewrite !filter_cons.
  assert (length (filter P l) ≤ length (filter Q l)) as Hle.
  { apply IH. intros x Hx. apply HPQ. by apply list_elem_of_further. }
  destruct (decide (P a)) as [HP|]; destruct (decide (Q a)) as [|HQ]; simpl; try lia.
  destruct HQ. apply HPQ; [apply list_elem_of_here | done].
Qed.

Lemma filter_length_lt_impl {A} (P Q : A → Prop)
    `{!∀ x, Decision (P x)} `{!∀ x, Decision (Q x)} (l : list A) (a : A) :
  (∀ x, x ∈ l → P x → Q x) → a ∈ l → Q a → ¬ P a →
  length (filter P l) < length (filter Q l).
Proof.
  induction l as [|b l IH]; intros HPQ Ha HQa HPa.
  { by apply elem_of_nil in Ha. }
  rewrite !filter_cons.
  assert (∀ x, x ∈ l → P x → Q x) as HPQ'.
  { intros x Hx. apply HPQ. by apply list_elem_of_further. }
  pose proof (filter_length_le_impl P Q l HPQ') as Hle.
  apply elem_of_cons in Ha as [<-|Ha].
  - rewrite decide_False, decide_True by done. simpl. lia.
  - specialize (IH HPQ' Ha HQa HPa).
    destruct (decide (P b)) as [HP|]; destruct (decide (Q b)) as [|HQ]; simpl; try lia.
    destruct HQ. apply HPQ; [apply list_elem_of_here | done].
Qed.

Lemma unseen_keys_add_le {V} (m : list (K * V)) seen k :
  unseen_keys m (set_add seen k) ≤ unseen_keys m seen.
Proof.
  apply filter_length_le_impl. intros x _ Hx Hs. apply Hx, elem_of_set_add. by left.
Qed.

Lemma unseen_keys_add_key {V} (m : list (K * V)) seen k :
  k ∈ map_keys m → k ∉ seen →
  unseen_keys m (set_add seen k) < unseen_keys m seen.
Proof.
  intros Hk Hs. apply (filter_length_lt_impl _ _ _ k); [|done..|].
  - intros x _ Hx Hxs. apply Hx, elem_of_set_add. by left.
  - intros Hn. apply Hn, elem_of_set_add. by right.
Qed.

Lemma unseen_keys_add_other {V} (m : list (K * V)) seen k :
  k ∉ map_keys m → unseen_keys m (set_add seen k) = unseen_keys m seen.
Proof.
  intros Hk. apply Nat.le_antisymm; [apply unseen_keys_add_le|].
  apply filter_length_le_impl. intros x Hx Hxs [?| ->]%elem_of_set_add; done.
Qed.

Lemma pop_snoc (front : list K) (x : K) : pop (front ++ [x]) = Some (front, x).
Proof. induction front as [|y front IH]; simpl; [done | by rewrite IH]. Qed.

Lemma pop_Some (a front : list K) (x : K) :
  pop a = Some (front, x) ↔ a = front ++ [x].
Proof.
  split; [|intros ->; apply pop_snoc].
  destruct a as [|z a _] using rev_ind; [done|].
  rewrite pop_snoc. by intros [= <- <-].
Qed.

Lemma pop_None (a : list K) : pop a = None ↔ a = [].
Proof.
  destruct a as [|y a]; simpl; [done|]. by destruct (pop a) as [[??]|].
Qed.

(** What one entry of the table counts for. *)
Definition weight (x : option number) : nat :=
  match x with
  | Some c => if decide (positive c) then 1 else 0
  | None => 0
  end.

Lemma positive_entries_map_set (m : list (K * number)) k c :
  positive_entries (map_set m k c) + weight (map_get m k)
  = positive_entries m + weight (Some c).
Proof.
  unfold positive_entries. induction m as [|[k' c'] m IH]; simpl.
  - rewrite filter_cons, filter_nil. simpl. destruct (decide (positive c)); simpl; lia.
  - case_decide; subst; rewrite !filter_cons; simpl in *.
    + destruct (decide (positive c)), (decide (positive c')); simpl; lia.
    + destruct (decide (positive c')); simpl; lia.
Qed.
End Measures.

(** ** The class [DirectedGraph<T>] *)

Section DirectedGraph.
Context {T : Type} `{EqDecision T}.

(** The field [edges : Map<T, Set<T>>]. *)
Abbreviation graph := (list (T * list T)).

(** [new DirectedGraph()]. *)
Definition empty_graph : graph := [].

(** [ensureAll(nodes)]. *)
Definition ensureAll (g : graph) (nodes : list T) : graph :=
  foldl (λ g node, if map_has g node then g else map_set g node []) g nodes.

(** [addAll(from, ...to)]. The set fetched (or created) for [from] is
    the object stored in the map, so adding to it is an update of the
    map at [from]. *)
Definition addAll (g : graph) (from : T) (to : list T) : graph :=
  let '(g1, dependencies) :=
    match map_get g from with
    | Some dependencies => (g, dependencies)
    | None => (map_set g from [], [])
    end in
  ensureAll (map_set g1 from (Sets.addAll dependencies to)) to.

(** The build loop of [main]: one [addAll] per manifest, on a graph that
    starts empty. *)
Definition build (calls : list (T * list T)) : graph :=
  foldl (λ g c, addAll g c.1 c.2) empty_graph calls.

(** *** [isCyclic] *)

(** One turn of the [while] loop of [isCyclic] on the work list and
    [seenOnThisWalk]. Leaving with [None] is [return true]; leaving with
    [Some seenOnThisWalk] is the work list having run empty. *)
Definition isCyclic_turn (g : graph) (st : list T * list T)
    : list T * list T + option (list T) :=
  let '(toVisit, seenOnThisWalk) := st in
  match toVisit with
  | [] => inr (Some seenOnThisWalk)
  | nextNode :: toVisit =>
      if set_has seenOnThisWalk nextNode then inr None
      else
        let seenOnThisWalk := set_add seenOnThisWalk nextNode in
        match map_get g nextNode with
        | Some nextNodeChildren =>
            inl (toVisit ++ nextNodeChildren, seenOnThisWalk)
        | None => inl (toVisit, seenOnThisWalk)
        end
  end.

Lemma isCyclic_terminates g : well_founded (iterates (isCyclic_turn g)).
Proof.
  apply (wf_projected (slexprod nat nat lt lt)
           (λ st, (unseen_keys g st.2, length st.1)));
    [|apply wf_slexprod; apply lt_wf].
  intros [toVisit' seen'] [[|nextNode toVisit] seen]; unfold iterates; simpl; [done|].
  unfold set_has. case_bool_decide as Hseen; [done|].
  destruct (map_get g nextNode) as [children|] eqn:Hget; intros [= <- <-].
  - apply left_slex, unseen_keys_add_key; [|done]. by eapply map_get_Some_key.
  - rewrite unseen_keys_add_other by by apply map_get_None_key.
    apply right_slex. lia.
Qed.

(** The [for] loop of [isCyclic] over the keys still to come. A key of
    the map has a set, so [this.edges.get(node)!] is that set; were it
    [undefined], spreading it would throw. *)
Fixpoint isCyclic_from (g : graph) (keys seenOnAllWalks : list T) : result bool :=
  match keys with
  | [] => Ok false
  | node :: keys =>
      if set_has seenOnAllWalks node then isCyclic_from g keys seenOnAllWalks
      else
        match map_get g node with
        | None => Throw TypeError
        | Some children =>
            match while (isCyclic_turn g) (isCyclic_terminates g) (children, []) with
            | None => Ok true
            | Some seenOnThisWalk =>
                isCyclic_from g keys (Sets.addAll seenOnAllWalks seenOnThisWalk)
            end
        end
  end.

(** [isCyclic()]. *)
Definition isCyclic (g : graph) : result bool :=
  isCyclic_from g (map_keys g) [].

(** *** [indegrees] and [topoSort] *)

(** [indegrees()]. *)
Definition indegrees (g : graph) : list (T * number) :=
  foldl (λ inDegrees '(node, neighbours),
           let inDegrees :=
             if map_has inDegrees node then inDegrees
             else map_set inDegrees node (Int 0) in
           foldl (λ inDegrees neighbour,
                    let count := or_zero (map_get inDegrees neighbour) in
                    map_set inDegrees neighbour (Int (count + 1)))
                 inDegrees neighbours)
        [] g.

(** One turn of the [for] loop over the neighbours of a popped node. *)
Definition release (st : list T * list (T * number)) (neighbour : T)
    : list T * list (T * number) :=
  let '(sources, inDegrees) := st in
  let neighbourIndegree := minus_one (map_get inDegrees neighbour) in
  let inDegrees := map_set inDegrees neighbour neighbourIndegree in
  if decide (neighbourIndegree = Int 0)
  then (sources ++ [neighbour], inDegrees)
  else (sources, inDegrees).

(** One turn of the [while] loop of [topoSort] on [sources], [inDegrees]
    and [topologicalOrdering]; it leaves with the ordering once [sources]
    is empty. *)
Definition topoSort_turn (g : graph)
    (st : list T * list (T * number) * list T)
    : list T * list (T * number) * list T + list T :=
  let '(sources, inDegrees, topologicalOrdering) := st in
  match pop sources with
  | None => inr topologicalOrdering
  | Some (sources, node) =>
      let topologicalOrdering := topologicalOrdering ++ [node] in
      let neighbours := default [] (map_get g node) in
      let '(sources, inDegrees) := foldl release (sources, inDegrees) neighbours in
      inl (sources, inDegrees, topologicalOrdering)
  end.

Lemma release_measure st neighbour :
  length (release st neighbour).1 + positive_entries (release st neighbour).2
  = length st.1 + positive_entries st.2.
Proof.
  destruct st as [sources inDegrees]. unfold release.
  pose proof (positive_entries_map_set inDegrees neighbour
                (minus_one (map_get inDegrees neighbour))) as Hw.
  destruct (map_get inDegrees neighbour) as [[z|]|]; simpl in *.
  - destruct (decide (Int (z - 1) = Int 0)) as [Hz|Hz]; simpl.
    + injection Hz as Hz. rewrite length_app. simpl.
      repeat destruct (decide _); simpl in *; lia.
    + assert (z - 1 ≠ 0)%Z by congruence.
      repeat destruct (decide _); simpl in *; lia.
  - repeat destruct (decide _); simpl in *; (done || lia).
  - repeat destruct (decide _); simpl in *; (done || lia).
Qed.

Lemma foldl_release_measure st neighbours :
  length (foldl release st neighbours).1
  + positive_entries (foldl release st neighbours).2
  = length st.1 + positive_entries st.2.
Proof.
  revert st. induction neighbours as [|n ns IH]; intros st; simpl; [done|].
  by rewrite IH, release_measure.
Qed.

Lemma topoSort_terminates g : well_founded (iterates (topoSort_turn g)).
Proof.
  apply (wf_projected lt (λ st, length st.1.1 + positive_entries st.1.2));
    [|apply lt_wf].
  intros [[sources' inDegrees'] ordering'] [[sources inDegrees] ordering].
  unfold iterates; simpl.
  destruct (pop sources) as [[front node]|] eqn:Hpop; [|done].
  apply pop_Some in Hpop as ->.
  pose proof (foldl_release_measure (front, inDegrees)
                (default [] (map_get g node))) as Hm.
  destruct (foldl release _ _) as [sources'' inDegrees''].
  intros [= <- <- <-]. rewrite length_app. simpl in *. lia.
Qed.

(** The messages of the two assertions of [topoSort]. *)
Definition no_source : string :=
  "a DAG must have at least one source (a node with an in-degree of 0)".

Definition has_cycle : string :=
  "Graph has a cycle! No topological ordering exists.".

(** [topoSort()]. *)
Definition topoSort (g : graph) : result (list T) :=
  let inDegrees := indegrees g in
  let sources := (filter (λ e, e.2 = Int 0) inDegrees).*1 in
  if decide (0 < length sources) then
    let topologicalOrdering :=
      while (topoSort_turn g) (topoSort_terminates g) (sources, inDegrees, []) in
    if decide (length topologicalOrdering = length g)
    then Ok topologicalOrdering
    else Throw (AssertionError has_cycle)
  else Throw (AssertionError no_source).

(** *** [invert], [walk] and [subgraph] *)

(** [invert()]. *)
Definition invert (g : graph) : graph :=
  foldl (λ inverted '(edge, deps),
           foldl (λ inverted dep, addAll inverted dep [edge])
                 (addAll inverted edge []) deps)
        empty_graph g.

(** One turn of the [while] loop of [walk] on the work list and [seen].
    Iterating [undefined] (the set of a node that is no key) throws;
    [seen] only changes once the [for] loop is over. *)
Definition walk_turn (g : graph) (st : list T * list T)
    : list T * list T + result (list T) :=
  let '(toVisit, seen) := st in
  match toVisit with
  | [] => inr (Ok seen)
  | next :: toVisit =>
      match map_get g next with
      | None => inr (Throw TypeError)
      | Some deps =>
          inl (toVisit ++ filter (λ dep, dep ∉ seen) deps, set_add seen next)
      end
  end.

Lemma walk_terminates g : well_founded (iterates (walk_turn g)).
Proof.
  apply (wf_projected (slexprod nat nat lt lt)
           (λ st, (unseen_keys g st.2, seen_entries st.1 st.2)));
    [|apply wf_slexprod; apply lt_wf].
  intros [toVisit' seen'] [[|next toVisit] seen]; unfold iterates; simpl; [done|].
  destruct (map_get g next) as [deps|] eqn:Hget; intros [= <- <-].
  destruct (decide (next ∈ seen)) as [Hseen|Hseen].
  - rewrite set_add_seen by done. apply right_slex.
    unfold seen_entries. rewrite filter_app, length_app, filter_cons_True by done.
    rewrite (filter_none _ (filter _ deps)); [simpl; lia|].
    by intros x [? _]%list_elem_of_filter.
  - apply left_slex, unseen_keys_add_key; [|done]. by eapply map_get_Some_key.
Qed.

(** [walk(start)]. *)
Definition walk (g : graph) (start : T) : result (list T) :=
  while (walk_turn g) (walk_terminates g) ([start], []).

(** [subgraph(keep)]. *)
Definition subgraph (g : graph) (keep : list T) : graph :=
  foldl (λ subgraph '(node, deps),
           if set_has keep node
           then addAll subgraph node (filter (λ dep, dep ∈ keep) deps)
           else subgraph)
        empty_graph g.

(** *** The graph as a relation *)

(** [v] is a node: a key of the map. *)
Definition node (g : graph) (v : T) : Prop := v ∈ map_keys g.

(** [a → b] is an edge: [b] is in the set stored for [a]. *)
Definition edge (g : graph) (a b : T) : Prop :=
  ∃ deps, map_get g a = Some deps ∧ b ∈ deps.

(** Node closure: every destination is a key. *)
Definition closed (g : graph) : Prop := ∀ a b, edge g a b → node g b.

(** The representation of a [Map] of [Set]s: no key twice, no element
    twice in a set. *)
Definition well_formed (g : graph) : Prop :=
  NoDup (map_keys g) ∧ ∀ a deps, map_get g a = Some deps → NoDup deps.

(** [b] is reachable from [a] along zero or more edges. *)
Definition reachable (g : graph) : relation T := rtc (edge g).

(** A directed cycle: a node that reaches itself along one or more
    edges. A self-loop is a cycle of one edge. *)
Definition cyclic (g : graph) : Prop := ∃ v, tc (edge g) v v.

Definition acyclic (g : graph) : Prop := ¬ cyclic g.

(** [a] comes before [b] in a sequence. *)
Definition before (a b : T) (l : list T) : Prop :=
  ∃ i j, l !! i = Some a ∧ l !! j = Some b ∧ i < j.
End DirectedGraph.

(** ** The command line and [main] *)

(** The enum [Mode]. *)
Module Mode.
Definition TOPO : Z := Z.shiftl 1 1.
Definition VIZ : Z := Z.shiftl 1 2.
Definition ALL : Z := Z.land TOPO VIZ.
End Mode.

(** A number used as a condition: zero is falsy. *)
Definition truthy (z : Z) : bool := negb (z =? 0)%Z.

Definition newline : string := String "010"%char "".
Definition quote : string := String "034"%char "".

(** [parseCliArgs(argv)]: the debug flag, the entrypoint and the mode. *)
Definition parseCliArgs (argv : list string) : result (bool * string * Z) :=
  let args := drop 2 argv in
  let debug := bool_decide ("--debug" ∈ args) in
  let args := if debug then filter (λ arg, arg ≠ "--debug") args else args in
  match args !! 0 with
  | None => Throw (AssertionError "missing entrypoint")
  | Some entrypoint =>
      match args !! 1 with
      | None => Ok (debug, entrypoint, Mode.ALL)
      | Some modeRaw =>
          if decide (modeRaw = "topo") then Ok (debug, entrypoint, Mode.TOPO)
          else if decide (modeRaw = "viz") then Ok (debug, entrypoint, Mode.VIZ)
          else Throw (Error ("invalid mode " +:+ modeRaw
                             +:+ " (must be one of topo, viz)"))
      end
  end.

(** [printAsGraphVis()]. *)
Definition printAsGraphVis (g : list (string * list string)) : string :=
  let line (out s : string) : string := out +:+ s +:+ newline in
  let out := line "" "digraph G {" in
  let out :=
    foldl (λ out '(pkg, deps),
             let out := line out ("  " +:+ quote +:+ pkg +:+ quote) in
             foldl (λ out dep,
                      line out ("  " +:+ quote +:+ pkg +:+ quote +:+ " -> "
                                +:+ quote +:+ dep +:+ quote))
                   out deps)
          out g in
  line out "}".

(** The part of [main] between the build loop and the output: the
    subgraph of what transitively depends on the entrypoint. *)
Definition entrypoint_subgraph (graph : list (string * list string))
    (entrypoint : string) : result (list (string * list string)) :=
  if map_has graph entrypoint then
    let inverted := invert graph in
    transitivelyDependsOnEntrypoint ← walk inverted entrypoint;
    Ok (subgraph graph transitivelyDependsOnEntrypoint)
  else Throw (Error ("could not find " +:+ entrypoint)).

(** [main()], on the command line and on the manifests that could be
    read (each a name with the names it depends on); it yields what it
    passes to [console.log]. *)
Definition main (argv : list string) (manifests : list (string * list string))
    : result (list string) :=
  '(debug, entrypoint, mode) ← parseCliArgs argv;
  graph ← entrypoint_subgraph (build manifests) entrypoint;
  topo ← (if truthy (Z.land mode Mode.TOPO)
          then ordering ← topoSort graph; Ok [String.concat newline ordering]
          else Ok []);
  let viz := if truthy (Z.land mode Mode.VIZ) then [printAsGraphVis graph] else [] in
  Ok (topo ++ viz).

(** * Properties *)

(** ** Maps and sets *)

Section ContainerFacts.
Context {K : Type} `{EqDecision K}.

Lemma map_get_is_Some {V} (m : list (K * V)) k :
  is_Some (map_get m k) ↔ k ∈ map_keys m.
Proof.
  split; [intros [v Hv]; by eapply map_get_Some_key|].
  intros Hk. destruct (map_get m k) eqn:Hget; [done|].
  by apply map_get_None_key in Hget.
Qed.

Lemma map_get_set {V} (m : list (K * V)) k v k' :
  map_get (map_set m k v) k' = if decide (k' = k) then Some v else map_get m k'.
Proof.
  induction m as [|[k0 v0] m IH]; simpl.
  - by case_decide.
  - destruct (decide (k = k0)) as [->|Hne]; simpl; repeat case_decide; by simplify_eq.
Qed.

Lemma map_keys_set {V} (m : list (K * V)) k v :
  map_keys (map_set m k v)
  = if decide (k ∈ map_keys m) then map_keys m else map_keys m ++ [k].
Proof.
  unfold map_keys. induction m as [|[k0 v0] m IH]; simpl.
  - done.
  - destruct (decide (k = k0)) as [->|Hne]; csimpl.
    + rewrite decide_True; [done | apply list_elem_of_here].
    + rewrite IH. destruct (decide (k ∈ m.*1)) as [Hin|Hin].
      * rewrite decide_True; [done | by apply list_elem_of_further].
      * rewrite decide_False; [done|]. by intros [?|?]%elem_of_cons.
Qed.

Lemma NoDup_map_keys_set {V} (m : list (K * V)) k v :
  NoDup (map_keys m) → NoDup (map_keys (map_set m k v)).
Proof.
  intros Hm. rewrite map_keys_set. case_decide; [done|].
  apply NoDup_app. split_and!; [done| |apply NoDup_singleton].
  by intros x Hx ->%list_elem_of_singleton.
Qed.

Lemma length_map_keys {V} (m : list (K * V)) : length (map_keys m) = length m.
Proof. apply length_fmap. Qed.

Lemma NoDup_set_add (s : list K) x : NoDup s → NoDup (set_add s x).
Proof.
  intros Hs. unfold set_add, set_has. case_bool_decide; [done|].
  apply NoDup_app. split_and!; [done| |apply NoDup_singleton].
  by intros y Hy ->%list_elem_of_singleton.
Qed.

Lemma elem_of_Sets_addAll (s xs : list K) y :
  y ∈ Sets.addAll s xs ↔ y ∈ s ∨ y ∈ xs.
Proof.
  unfold Sets.addAll. revert s. induction xs as [|x xs IH]; intros s; simpl.
  - split; [by left | by intros [?|?%elem_of_nil]].
  - rewrite IH, elem_of_set_add, elem_of_cons. intuition auto.
Qed.

Lemma NoDup_Sets_addAll (s xs : list K) : NoDup s → NoDup (Sets.addAll s xs).
Proof.
  unfold Sets.addAll. revert s. induction xs as [|x xs IH]; intros s Hs; simpl; [done|].
  by apply IH, NoDup_set_add.
Qed.
End ContainerFacts.

(** ** What [addAll] does to the nodes and edges *)

Section Builder.
Context {T : Type} `{EqDecision T}.
Implicit Types g calls : list (T * list T).

Lemma node_is_Some g v : node g v ↔ is_Some (map_get g v).
Proof. unfold node. by rewrite map_get_is_Some. Qed.

Lemma edge_node_l g a b : edge g a b → node g a.
Proof. intros (deps & Hget & _). by eapply map_get_Some_key. Qed.

Lemma map_get_ensureAll g nodes k :
  map_get (ensureAll g nodes) k
  = match map_get g k with
    | Some deps => Some deps
    | None => if decide (k ∈ nodes) then Some [] else None
    end.
Proof.
  unfold ensureAll. revert g. induction nodes as [|n nodes IH]; intros g; simpl.
  - by destruct (map_get g k).
  - rewrite IH. unfold map_has. case_bool_decide as Hn.
    + destruct (map_get g k) eqn:Hk; [done|].
      apply decide_ext. rewrite elem_of_cons. split; [by right|].
      intros [->|?]; [|done]. rewrite Hk in Hn. by destruct Hn.
    + rewrite map_get_set. destruct (decide (k = n)) as [->|Hne].
      * apply eq_None_not_Some in Hn. rewrite Hn.
        rewrite decide_True; [done | apply list_elem_of_here].
      * destruct (map_get g k); [done|].
        apply decide_ext. rewrite elem_of_cons. intuition auto.
Qed.

Lemma map_keys_ensureAll_NoDup g nodes :
  NoDup (map_keys g) → NoDup (map_keys (ensureAll g nodes)).
Proof.
  unfold ensureAll. revert g. induction nodes as [|n nodes IH]; intros g Hg; simpl; [done|].
  apply IH. destruct (map_has g n); [done|]. by apply NoDup_map_keys_set.
Qed.

(** The set stored for [k] after [addAll(from, ...to)]. *)
Lemma map_get_addAll g from to k :
  map_get (addAll g from to) k
  = if decide (k = from)
    then Some (Sets.addAll (default [] (map_get g from)) to)
    else match map_get g k with
         | Some deps => Some deps
         | None => if decide (k ∈ to) then Some [] else None
         end.
Proof.
  unfold addAll.
  destruct (map_get g from) as [deps|] eqn:Hfrom;
    rewrite map_get_ensureAll, !map_get_set; by case_decide.
Qed.

Lemma NoDup_map_keys_addAll g from to :
  NoDup (map_keys g) → NoDup (map_keys (addAll g from to)).
Proof.
  intros Hg. unfold addAll. destruct (map_get g from);
    by repeat (apply map_keys_ensureAll_NoDup || apply NoDup_map_keys_set).
Qed.

Lemma node_addAll g from to v :
  node (addAll g from to) v ↔ node g v ∨ v = from ∨ v ∈ to.
Proof.
  rewrite !node_is_Some, map_get_addAll.
  destruct (decide (v = from)) as [->|Hne].
  - split; [by right; left | by eexists].
  - destruct (map_get g v) eqn:Hv.
    + split; [by left | by eexists].
    + case_decide.
      * split; [by right; right | by eexists].
      * split; [by intros [? [=]] | by intros [[? [=]]|[?|?]]].
Qed.

Lemma edge_addAll g from to a b :
  edge (addAll g from to) a b ↔ edge g a b ∨ (a = from ∧ b ∈ to).
Proof.
  unfold edge. setoid_rewrite map_get_addAll.
  destruct (decide (a = from)) as [->|Hne].
  - split.
    + intros (deps & [= <-] & [Hb|Hb]%elem_of_Sets_addAll); [|by right].
      left. destruct (map_get g from) as [deps|]; [by eexists|].
      by apply elem_of_nil in Hb.
    + intros [(deps & Hget & Hb)|[_ Hb]]; eexists; (split; [done|]);
        apply elem_of_Sets_addAll; [left | by right].
      by rewrite Hget.
  - destruct (map_get g a) as [deps|] eqn:Ha.
    + split; [by left | by intros [?|[? _]]].
    + split.
      * intros (deps & Hd & Hb). case_decide; [|done].
        injection Hd as <-. by apply elem_of_nil in Hb.
      * intros [(? & ? & _)|[? _]]; done.
Qed.

Lemma well_formed_addAll g from to :
  well_formed g → well_formed (addAll g from to).
Proof.
  intros [Hkeys Hsets]. split; [by apply NoDup_map_keys_addAll|].
  intros a deps. rewrite map_get_addAll. case_decide as Ha.
  - intros [= <-]. apply NoDup_Sets_addAll.
    destruct (map_get g from) eqn:Hf; [by eapply Hsets | apply NoDup_nil_2].
  - destruct (map_get g a) eqn:Hga; [intros [= <-]; by eapply Hsets|].
    case_decide; [|done]. intros [= <-]. apply NoDup_nil_2.
Qed.

Lemma closed_addAll g from to : closed g → closed (addAll g from to).
Proof.
  intros Hg a b [Hab|[-> Hb]]%edge_addAll; apply node_addAll; [|by right; right].
  left. by eapply Hg.
Qed.

Lemma well_formed_empty : well_formed (@empty_graph T).
Proof. split; [apply NoDup_nil_2 | done]. Qed.

Lemma closed_empty : closed (@empty_graph T).
Proof. by intros a b (? & ? & _). Qed.

(** What holds of the empty graph and is kept by [addAll] holds of every
    graph that was built. *)
Lemma build_ind (P : list (T * list T) → Prop) :
  P empty_graph → (∀ g from to, P g → P (addAll g from to)) →
  ∀ calls, P (build calls).
Proof.
  intros Hempty Hadd calls. unfold build.
  generalize (@empty_graph T) Hempty.
  induction calls as [|[from to] calls IH]; intros g Hg; simpl; [done|].
  by apply IH, Hadd.
Qed.

Lemma well_formed_build calls : well_formed (build calls).
Proof.
  apply (build_ind well_formed); [apply well_formed_empty | apply well_formed_addAll].
Qed.

Lemma closed_build calls : closed (build calls).
Proof. apply (build_ind closed); [apply closed_empty | apply closed_addAll]. Qed.
End Builder.

(** ** [invert] *)

Section Invert.
Context {T : Type} `{EqDecision T}.
Implicit Types g inverted : list (T * list T).

Lemma elem_of_map_get {V} (m : list (T * V)) k v :
  NoDup (map_keys m) → (k, v) ∈ m ↔ map_get m k = Some v.
Proof.
  unfold map_keys. induction m as [|[k' v'] m IH]; csimpl; intros Hm.
  - split; [by intros ?%elem_of_nil | done].
  - apply NoDup_cons in Hm as [Hk' Hm]. rewrite elem_of_cons, (IH Hm).
    case_decide as Hk; [subst k'|].
    + split; [|intros [= ->]; by left].
      intros [[= ->]|Hget]; [done|]. destruct Hk'. by eapply map_get_Some_key.
    + split; [|by right]. by intros [[= ? ?]|?].
Qed.

Lemma edge_entry g a b :
  NoDup (map_keys g) → edge g a b ↔ ∃ deps, (a, deps) ∈ g ∧ b ∈ deps.
Proof. intros Hg. unfold edge. by setoid_rewrite (elem_of_map_get g a _ Hg). Qed.

(** What [addAll] keeps, every graph made of [addAll]s has. *)
Definition kept_by_addAll (P : list (T * list T) → Prop) : Prop :=
  ∀ g from to, P g → P (addAll g from to).

Lemma invert_deps_kept P inverted e deps :
  kept_by_addAll P → P inverted →
  P (foldl (λ inverted dep, addAll inverted dep [e]) inverted deps).
Proof.
  intros HP. revert inverted. induction deps as [|d deps IH]; intros inv Hinv; simpl; [done|].
  by apply IH, HP.
Qed.

Lemma invert_from_kept P inverted g :
  kept_by_addAll P → P inverted →
  P (foldl (λ inverted '(edge, deps),
              foldl (λ inverted dep, addAll inverted dep [edge])
                    (addAll inverted edge []) deps) inverted g).
Proof.
  intros HP. revert inverted. induction g as [|[e deps] g IH]; intros inv Hinv; simpl; [done|].
  by apply IH, invert_deps_kept, HP.
Qed.

Lemma well_formed_invert g : well_formed (invert g).
Proof.
  apply (invert_from_kept well_formed); [|apply well_formed_empty].
  intros ???. apply well_formed_addAll.
Qed.

Lemma closed_invert g : closed (invert g).
Proof.
  apply (invert_from_kept closed); [|apply closed_empty].
  intros ???. apply closed_addAll.
Qed.

Lemma node_invert_deps inverted e deps v :
  node inverted e →
  node (foldl (λ inverted dep, addAll inverted dep [e]) inverted deps) v
  ↔ node inverted v ∨ v ∈ deps.
Proof.
  revert inverted. induction deps as [|d deps IH]; intros inv He; simpl.
  - split; [by left | by intros [?|?%elem_of_nil]].
  - rewrite IH by (apply node_addAll; by left).
    rewrite node_addAll, list_elem_of_singleton, elem_of_cons.
    split; [|intuition auto]. intros [[?|[?| ->]]|?]; auto.
Qed.

Lemma edge_invert_deps inverted e deps a b :
  edge (foldl (λ inverted dep, addAll inverted dep [e]) inverted deps) a b
  ↔ edge inverted a b ∨ (a ∈ deps ∧ b = e).
Proof.
  revert inverted. induction deps as [|d deps IH]; intros inv; simpl.
  - split; [by left | by intros [?|[?%elem_of_nil _]]].
  - rewrite IH, edge_addAll, list_elem_of_singleton, elem_of_cons.
    intuition (subst; auto).
Qed.

Lemma node_invert_from inverted g v :
  node (foldl (λ inverted '(edge, deps),
                 foldl (λ inverted dep, addAll inverted dep [edge])
                       (addAll inverted edge []) deps) inverted g) v
  ↔ node inverted v ∨ ∃ e deps, (e, deps) ∈ g ∧ (v = e ∨ v ∈ deps).
Proof.
  revert inverted. induction g as [|[e deps] g IH]; intros inv; simpl.
  - split; [by left | by intros [?|(? & ? & ?%elem_of_nil & _)]].
  - rewrite IH, node_invert_deps by (apply node_addAll; by right; left).
    rewrite node_addAll. split.
    + intros [[[?|[->|?%elem_of_nil]]|?]|(e' & deps' & ? & ?)]; try by auto.
      * right. exists e, deps. split; [apply list_elem_of_here | by left].
      * right. exists e, deps. split; [apply list_elem_of_here | by right].
      * right. exists e', deps'. split; [by apply list_elem_of_further | done].
    + intros [?|(e' & deps' & [[= -> ->]|?]%elem_of_cons & Hv)]; [by auto| |by eauto].
      destruct Hv as [->|?]; auto.
Qed.

Lemma edge_invert_from inverted g a b :
  edge (foldl (λ inverted '(edge, deps),
                 foldl (λ inverted dep, addAll inverted dep [edge])
                       (addAll inverted edge []) deps) inverted g) a b
  ↔ edge inverted a b ∨ ∃ deps, (b, deps) ∈ g ∧ a ∈ deps.
Proof.
  revert inverted. induction g as [|[e deps] g IH]; intros inv; simpl.
  - split; [by left | by intros [?|(? & ?%elem_of_nil & _)]].
  - rewrite IH, edge_invert_deps, edge_addAll. split.
    + intros [[[?|[_ ?%elem_of_nil]]|[? ->]]|(deps' & ? & ?)]; try by auto.
      * right. exists deps. split; [apply list_elem_of_here | done].
      * right. exists deps'. split; [by apply list_elem_of_further | done].
    + intros [?|(deps' & [[= -> ->]|?]%elem_of_cons & Ha)]; [by auto|by auto|by eauto].
Qed.

(** [invert] reverses every edge. *)
Lemma edge_invert g a b :
  NoDup (map_keys g) → edge (invert g) b a ↔ edge g a b.
Proof.
  intros Hg. unfold invert. rewrite edge_invert_from, (edge_entry g) by done.
  split; [by intros [(? & ? & _)|?] | by right].
Qed.

(** [invert] keeps the nodes of a graph whose destinations are keys. *)
Lemma node_invert g v :
  NoDup (map_keys g) → closed g → node (invert g) v ↔ node g v.
Proof.
  intros Hg Hclosed. unfold invert. rewrite node_invert_from. split.
  - intros [?%elem_of_nil|(e & deps & He & [->|Hv])]; [done| |].
    + eapply map_get_Some_key. by apply elem_of_map_get.
    + apply (Hclosed e). apply edge_entry; eauto.
  - intros [deps Hget]%node_is_Some. right. exists v, deps.
    split; [by apply elem_of_map_get | by left].
Qed.
End Invert.

(** ** [walk] *)

Section Walk.
Context {T : Type} `{EqDecision T}.
Implicit Types g : list (T * list T).

(** What every turn of the loop of [walk] keeps: the work list and [seen]
    hold only nodes reachable from [start], the work list holds only
    keys, every successor of a seen node is seen or waiting, [start]
    itself is seen or waiting, and [seen] repeats no node. *)
Definition walk_invariant g (start : T) (st : list T * list T) : Prop :=
  (∀ v, v ∈ st.1 ∨ v ∈ st.2 → reachable g start v)
  ∧ (∀ v, v ∈ st.1 → node g v)
  ∧ (∀ u v, u ∈ st.2 → edge g u v → v ∈ st.2 ∨ v ∈ st.1)
  ∧ (start ∈ st.2 ∨ start ∈ st.1)
  ∧ NoDup st.2.

(** What [walk] returns: a set that holds the nodes reachable from
    [start], and no other. *)
Definition walk_post g (start : T) (r : result (list T)) : Prop :=
  ∃ seen, r = Ok seen ∧ NoDup seen ∧ ∀ v, v ∈ seen ↔ reachable g start v.

Lemma walk_invariant_turn g start st :
  closed g → walk_invariant g start st →
  match walk_turn g st with
  | inl st' => walk_invariant g start st'
  | inr r => walk_post g start r
  end.
Proof.
  intros Hclosed. destruct st as [[|next toVisit] seen]; simpl.
  - intros (Hreach & _ & Hsucc & Hstart & Hnd); simpl in *.
    exists seen. split_and!; [done..|]. intros v. split; [by auto|].
    assert (start ∈ seen) as Hs by (by destruct Hstart as [?|?%elem_of_nil]).
    revert v. apply rtc_ind_r; [done|]. intros u v _ Huv IH.
    by destruct (Hsucc u v) as [?|?%elem_of_nil].
  - intros (Hreach & Hnode & Hsucc & Hstart & Hnd); simpl in *.
    destruct (map_get g next) as [deps|] eqn:Hget.
    2:{ apply map_get_None_key in Hget. destruct Hget. apply Hnode, list_elem_of_here. }
    assert (∀ v, v ∈ deps → edge g next v) as Hdeps by (intros v ?; by exists deps).
    split_and!; simpl.
    + intros v [[?|[_ ?]%list_elem_of_filter]%elem_of_app | [?| ->]%elem_of_set_add].
      * apply Hreach. left. by apply list_elem_of_further.
      * eapply rtc_r; [|by apply Hdeps]. apply Hreach. left. apply list_elem_of_here.
      * apply Hreach. by right.
      * apply Hreach. left. apply list_elem_of_here.
    + intros v [?|[_ ?]%list_elem_of_filter]%elem_of_app.
      * by apply Hnode, list_elem_of_further.
      * eapply Hclosed. by apply Hdeps.
    + intros u v [Hu| ->]%elem_of_set_add Huv.
      * destruct (Hsucc u v Hu Huv) as [?|[->|?]%elem_of_cons].
        -- left. apply elem_of_set_add. by left.
        -- left. apply elem_of_set_add. by right.
        -- right. apply elem_of_app. by left.
      * destruct Huv as (deps' & Hget' & Hv). simplify_eq.
        destruct (decide (v ∈ seen)).
        -- left. apply elem_of_set_add. by left.
        -- right. apply elem_of_app. right. by apply list_elem_of_filter.
    + destruct Hstart as [?|[->|?]%elem_of_cons].
      * left. apply elem_of_set_add. by left.
      * left. apply elem_of_set_add. by right.
      * right. apply elem_of_app. by left.
    + by apply NoDup_set_add.
Qed.

(** [walk] on a graph whose destinations are keys, from a key: it
    returns, and what it returns is the set of reachable nodes. *)
Lemma walk_closed g start :
  closed g → node g start → walk_post g start (walk g start).
Proof.
  intros Hclosed Hstart. unfold walk.
  apply (while_rule (walk_turn g) (walk_invariant g start) (walk_post g start)).
  - intros st. by apply walk_invariant_turn.
  - split_and!; simpl.
    + intros v [->%list_elem_of_singleton|?%elem_of_nil]; [|done]. apply rtc_refl.
    + by intros v ->%list_elem_of_singleton.
    + by intros u v ?%elem_of_nil.
    + right. apply list_elem_of_here.
    + apply NoDup_nil_2.
Qed.
End Walk.

(** ** Cycles *)

Section Cycles.
Context {T : Type} `{EqDecision T}.
Implicit Types g : list (T * list T).

#[global] Instance edge_dec g : RelDecision (edge g).
Proof.
  intros a b. unfold edge. destruct (map_get g a) as [deps|].
  - destruct (decide (b ∈ deps)) as [Hb|Hb].
    + left. by exists deps.
    + right. by intros (? & [= <-] & ?).
  - right. by intros (? & [=] & _).
Defined.

#[global] Instance node_dec g v : Decision (node g v).
Proof. unfold node. apply _. Defined.

(** A non-empty finite set in which every element has a predecessor in
    the set holds a cycle. *)
Lemma cycle_of_predecessors (E : relation T) `{!RelDecision E} (R : list T) :
  R ≠ [] → (∀ v, v ∈ R → ∃ u, u ∈ R ∧ E u v) → ∃ w, tc E w w.
Proof.
  revert E RelDecision0. induction R as [|x R IH]; intros E HE Hne Hpred; [done|].
  destruct (decide (E x x)) as [Hxx|Hxx]; [exists x; by apply tc_once|].
  destruct R as [|y R'] eqn:HR.
  { destruct (Hpred x) as (u & ->%list_elem_of_singleton & Hu); [apply list_elem_of_here | done]. }
  rewrite <-HR in *.
  assert (R ≠ []) as HRne by by rewrite HR.
  set (E' := λ u v, E u v ∨ (E u x ∧ E x v)).
  assert (RelDecision E') as HE' by (intros u v; unfold E'; apply _).
  destruct (IH E' HE' HRne) as [w Hw].
  - intros v Hv.
    destruct (Hpred v) as (u & [->|Hu]%elem_of_cons & Huv);
      [by apply list_elem_of_further| |exists u; split; [done | by left]].
    destruct (Hpred x) as (u' & [->|Hu']%elem_of_cons & Hu'x);
      [apply list_elem_of_here | done |].
    exists u'. split; [done | by right].
  - exists w. revert Hw. generalize w at 2 4. generalize w. clear.
    induction 1 as [a b [?|[??]]|a b c [?|[??]] _ IH].
    + by apply tc_once.
    + apply (tc_l _ a x b); [done | by apply tc_once].
    + by apply (tc_l _ a b c).
    + apply (tc_l _ a x c); [done | by apply (tc_l _ x b c)].
Qed.

(** A ranking that grows along every edge rules cycles out. *)
Lemma acyclic_ranked g (rank : T → nat) :
  (∀ a b, edge g a b → rank a < rank b) → acyclic g.
Proof.
  intros Hrank [v Hv].
  assert (∀ a b, tc (edge g) a b → rank a < rank b) as Htc.
  { induction 1 as [a b ?|a b c ? _ IH]; [by apply Hrank|].
    etrans; [by apply Hrank | done]. }
  specialize (Htc v v Hv). lia.
Qed.

(** The same, for a ranking checked entry by entry. *)
Lemma acyclic_forward g (rank : T → nat) :
  Forall (λ e, Forall (λ b, rank e.1 < rank b) e.2) g → acyclic g.
Proof.
  intros Hforward. apply (acyclic_ranked g rank).
  intros a b (deps & Hget%map_get_Some_elem_of & Hb).
  rewrite Forall_forall in Hforward. specialize (Hforward _ Hget).
  rewrite Forall_forall in Hforward. by apply Hforward.
Qed.
End Cycles.

(** ** [isCyclic] *)

Section IsCyclic.
Context {T : Type} `{EqDecision T}.
Implicit Types g : list (T * list T).

(** No cycle can be reached from [v]. *)
Definition safe g (v : T) : Prop :=
  ∀ w, rtc (edge g) v w → ¬ tc (edge g) w w.

(** Every edge out of a node of [seen] leads to a later place of the
    sequence [l], of which [seen] is the beginning. *)
Definition forward g (seen l : list T) : Prop :=
  ∀ i x y, seen !! i = Some x → edge g x y → ∃ j, i < j ∧ l !! j = Some y.

(** What every turn of the loop of [isCyclic] keeps, on a walk that began
    with the work list [children]: [seenOnThisWalk] repeats no node, every
    edge out of a seen node leads further on in what was seen followed by
    what waits, and each of [children] is seen or waits. *)
Definition isCyclic_invariant g (children : list T) (st : list T * list T) : Prop :=
  NoDup st.2
  ∧ forward g st.2 (st.2 ++ st.1)
  ∧ (∀ c, c ∈ children → c ∈ st.2 ∨ c ∈ st.1).

(** What holds of a walk that ran to its end. *)
Definition isCyclic_post g (children : list T) (r : option (list T)) : Prop :=
  ∀ seen, r = Some seen →
    NoDup seen ∧ forward g seen seen ∧ (∀ c, c ∈ children → c ∈ seen).

Lemma isCyclic_invariant_turn g children st :
  isCyclic_invariant g children st →
  match isCyclic_turn g st with
  | inl st' => isCyclic_invariant g children st'
  | inr r => isCyclic_post g children r
  end.
Proof.
  destruct st as [[|x Q] seen]; intros (Hnd & Hfw & Hch); simpl in *.
  { intros ? [= <-]. rewrite app_nil_r in Hfw.
    split_and!; [done..|]. intros c Hc. by destruct (Hch c Hc) as [?|?%elem_of_nil]. }
  unfold set_has. case_bool_decide as Hx; [by intros ? [=]|].
  assert (set_add seen x = seen ++ [x]) as ->
    by (unfold set_add, set_has; by rewrite bool_decide_false).
  assert (NoDup (seen ++ [x])) as Hnd'.
  { apply NoDup_app. split_and!; [done| |apply NoDup_singleton].
    by intros y Hy ->%list_elem_of_singleton. }
  assert (∀ c, c ∈ children → ∀ more, c ∈ seen ++ [x] ∨ c ∈ Q ++ more) as Hch'.
  { intros c Hc more. rewrite !elem_of_app, list_elem_of_singleton.
    destruct (Hch c Hc) as [?|[->|?]%elem_of_cons]; auto. }
  assert (∀ more i a b, seen !! i = Some a → edge g a b →
            ∃ j, i < j ∧ ((seen ++ [x]) ++ Q ++ more) !! j = Some b) as Hold.
  { intros more i a b Hi Hab. destruct (Hfw i a b Hi Hab) as (j & Hij & Hj).
    exists j. split; [done|].
    replace ((seen ++ [x]) ++ Q ++ more) with ((seen ++ x :: Q) ++ more)
      by (by rewrite <-!(assoc_L (++))).
    by apply lookup_app_l_Some. }
  destruct (map_get g x) as [ch|] eqn:Hget; (split_and!; simpl; [done| |]).
  - intros i a b Hi Hab.
    destruct (decide (i < length seen)) as [Hlt|Hge].
    { rewrite lookup_app_l in Hi by done. by apply (Hold ch i a b). }
    rewrite lookup_app_r in Hi by lia.
    apply list_lookup_singleton_Some in Hi as [Hi <-].
    destruct Hab as (deps & Hdeps & [k Hk]%list_elem_of_lookup). simplify_eq.
    exists (length (seen ++ [x]) + (length Q + k)). split.
    + rewrite length_app. simpl. lia.
    + by rewrite lookup_app_r, Nat.add_comm, Nat.add_sub,
        lookup_app_r, Nat.add_comm, Nat.add_sub by lia.
  - intros c Hc. apply Hch', Hc.
  - intros i a b Hi Hab.
    destruct (decide (i < length seen)) as [Hlt|Hge].
    { rewrite lookup_app_l in Hi by done.
      destruct (Hold [] i a b Hi Hab) as (j & ? & Hj).
      rewrite app_nil_r in Hj. eauto. }
    rewrite lookup_app_r in Hi by lia.
    apply list_lookup_singleton_Some in Hi as [Hi <-].
    destruct Hab as (deps & Hdeps & _). congruence.
  - intros c Hc. specialize (Hch' c Hc []). by rewrite app_nil_r in Hch'.
Qed.

(** In a duplicate-free sequence whose edges all lead further on, no node
    reaches a cycle. *)
Lemma forward_safe g (seen : list T) v :
  NoDup seen → forward g seen seen → v ∈ seen → safe g v.
Proof.
  intros Hnd Hfw.
  assert (∀ a b, tc (edge g) a b → ∀ i, seen !! i = Some a →
            ∃ j, i < j ∧ seen !! j = Some b) as Htc.
  { induction 1 as [a b Hab|a b c Hab _ IH]; intros i Hi; [by eapply Hfw|].
    destruct (Hfw i a b Hi Hab) as (j & Hij & Hj).
    destruct (IH j Hj) as (k & Hjk & Hk). exists k. split; [lia | done]. }
  intros [i Hi]%list_elem_of_lookup w Hvw Hww.
  assert (∃ k, seen !! k = Some w) as [k Hk].
  { apply rtc_tc in Hvw as [<-|Hvw]; [by exists i|].
    destruct (Htc v w Hvw i Hi) as (k & _ & Hk). by exists k. }
  destruct (Htc w w Hww k Hk) as (k' & Hkk' & Hk').
  pose proof (NoDup_lookup seen k k' w Hnd Hk Hk'). lia.
Qed.

(** A walk that runs to its end has seen nodes that reach no cycle only,
    and its root reaches none either. *)
Lemma isCyclic_walk_safe g root children seen :
  map_get g root = Some children →
  while (isCyclic_turn g) (isCyclic_terminates g) (children, []) = Some seen →
  safe g root ∧ ∀ v, v ∈ seen → safe g v.
Proof.
  intros Hroot Hwalk.
  destruct (while_rule (isCyclic_turn g) (isCyclic_invariant g children)
              (isCyclic_post g children) (isCyclic_terminates g)
              (isCyclic_invariant_turn g children) (children, []))
    with (seen := seen) as (Hnd & Hfw & Hch); [|done|].
  { split_and!; simpl; [apply NoDup_nil_2 | by intros ??? [=] | by right]. }
  assert (∀ v, v ∈ seen → safe g v) as Hsafe by (intros v; by apply forward_safe).
  split; [|done].
  assert (∀ x, tc (edge g) root x → ∃ c, c ∈ seen ∧ rtc (edge g) c x) as Hfirst.
  { intros x Hx. inversion Hx as [? ? (deps & Hd & Hc)|? c ? (deps & Hd & Hc) Hcx]; simplify_eq.
    - exists x. split; [by apply Hch | done].
    - exists c. split; [by apply Hch | by apply tc_rtc]. }
  intros w [<-|Hw]%rtc_tc Hww.
  - destruct (Hfirst root Hww) as (c & Hc & Hcr). by apply (Hsafe c Hc root).
  - destruct (Hfirst w Hw) as (c & Hc & Hcw). by apply (Hsafe c Hc w).
Qed.

(** The [for] loop of [isCyclic] from a set of nodes that reach no cycle,
    over keys: it returns [true], or it returns [false] and none of the
    keys reaches a cycle. *)
Lemma isCyclic_from_safe g keys seenOnAllWalks :
  (∀ v, v ∈ seenOnAllWalks → safe g v) → (∀ k, k ∈ keys → node g k) →
  isCyclic_from g keys seenOnAllWalks = Ok true
  ∨ (isCyclic_from g keys seenOnAllWalks = Ok false ∧ ∀ k, k ∈ keys → safe g k).
Proof.
  revert seenOnAllWalks. induction keys as [|k keys IH]; intros seenAll Hsafe Hkeys; simpl.
  { right. split; [done|]. by intros k ?%elem_of_nil. }
  assert (∀ k', k' ∈ keys → node g k') as Hkeys'
    by (intros k' ?; by apply Hkeys, list_elem_of_further).
  unfold set_has. case_bool_decide as Hk.
  - destruct (IH seenAll Hsafe Hkeys') as [?|[? Hrest]]; [by left|].
    right. split; [done|]. intros k' [->|?]%elem_of_cons; [by apply Hsafe | by apply Hrest].
  - destruct (proj1 (node_is_Some g k)) as [children Hget];
      [apply Hkeys, list_elem_of_here|]. rewrite Hget.
    destruct (while _ _ _) as [seenThis|] eqn:Hwalk; [|by left].
    destruct (isCyclic_walk_safe g k children seenThis Hget Hwalk) as [Hroot Hthis].
    destruct (IH (Sets.addAll seenAll seenThis)) as [?|[? Hrest]]; [|done|by left|].
    { intros v [?|?]%elem_of_Sets_addAll; [by apply Hsafe | by apply Hthis]. }
    right. split; [done|]. intros k' [->|?]%elem_of_cons; [done | by apply Hrest].
Qed.

(** [isCyclic] returns [true] on every graph that has a cycle. *)
Lemma isCyclic_cyclic g : cyclic g → isCyclic g = Ok true.
Proof.
  intros [w Hw]. unfold isCyclic.
  destruct (isCyclic_from_safe g (map_keys g) []) as [?|[_ Hsafe]]; [|done..|].
  { by intros v ?%elem_of_nil. }
  destruct (Hsafe w) with (w := w); [|done..].
  inversion Hw as [?? Hedge|??? Hedge]; by eapply edge_node_l.
Qed.
End IsCyclic.

(** ** [indegrees] *)

Section Indegrees.
Context {T : Type} `{EqDecision T}.
Implicit Types g : list (T * list T).

(** The in-degree of [v]: the number of edges that end at [v], one for
    each key whose set holds [v]. *)
Definition in_degree g (v : T) : nat := length (filter (λ e, v ∈ e.2) g).

(** [v] is a key or a destination of one of the entries. *)
Definition mentioned g (v : T) : Prop :=
  v ∈ map_keys g ∨ Exists (λ e, v ∈ e.2) g.

#[global] Instance mentioned_dec g v : Decision (mentioned g v).
Proof. unfold mentioned. apply _. Defined.

Lemma mentioned_alt g v :
  mentioned g v ↔ v ∈ map_keys g ∨ ∃ e, e ∈ g ∧ v ∈ e.2.
Proof. unfold mentioned. by rewrite Exists_exists. Qed.

Lemma mentioned_snoc g node neighbours v :
  mentioned (g ++ [(node, neighbours)]) v
  ↔ mentioned g v ∨ v = node ∨ v ∈ neighbours.
Proof.
  rewrite !mentioned_alt. unfold map_keys. rewrite fmap_app, elem_of_app. csimpl.
  rewrite list_elem_of_singleton. split.
  - intros [[?|?]|(e & [?| ->%list_elem_of_singleton]%elem_of_app & ?)]; eauto.
  - intros [[?|(e & ? & ?)]|[?|?]]; eauto.
    + right. exists e. rewrite elem_of_app. eauto.
    + right. exists (node, neighbours). rewrite elem_of_app, list_elem_of_singleton. eauto.
Qed.

Lemma in_degree_snoc g node neighbours v :
  in_degree (g ++ [(node, neighbours)]) v
  = in_degree g v + (if decide (v ∈ neighbours) then 1 else 0).
Proof.
  unfold in_degree. rewrite filter_app, length_app, filter_cons, filter_nil. simpl.
  by destruct (decide (v ∈ neighbours)).
Qed.

Lemma in_degree_unmentioned g v : ¬ mentioned g v → in_degree g v = 0.
Proof.
  intros Hv. unfold in_degree. rewrite filter_none; [done|].
  intros e He Hve. apply Hv, mentioned_alt. right. eauto.
Qed.

(** The [for] loop over the neighbours of one entry. *)
Lemma map_get_count_neighbours (inDegrees : list (T * number)) neighbours v :
  NoDup neighbours →
  map_get (foldl (λ inDegrees neighbour,
                    let count := or_zero (map_get inDegrees neighbour) in
                    map_set inDegrees neighbour (Int (count + 1)))
                 inDegrees neighbours) v
  = if decide (v ∈ neighbours)
    then Some (Int (or_zero (map_get inDegrees v) + 1))
    else map_get inDegrees v.
Proof.
  revert inDegrees. induction neighbours as [|n ns IH]; intros D Hnd; simpl.
  - done.
  - apply NoDup_cons in Hnd as [Hn Hns]. rewrite IH by done.
    rewrite map_get_set. destruct (decide (v = n)) as [->|Hne].
    + rewrite decide_False by done. rewrite decide_True; [done | apply list_elem_of_here].
    + apply decide_ext. rewrite elem_of_cons. intuition auto.
Qed.

Lemma indegrees_snoc g node neighbours :
  indegrees (g ++ [(node, neighbours)])
  = let inDegrees := indegrees g in
    let inDegrees :=
      if map_has inDegrees node then inDegrees
      else map_set inDegrees node (Int 0) in
    foldl (λ inDegrees neighbour,
             let count := or_zero (map_get inDegrees neighbour) in
             map_set inDegrees neighbour (Int (count + 1)))
          inDegrees neighbours.
Proof. unfold indegrees. by rewrite foldl_snoc. Qed.

(** The table of [indegrees()] holds, for every key and every
    destination, its in-degree, and nothing else. *)
Lemma map_get_indegrees g v :
  (∀ e, e ∈ g → NoDup e.2) →
  map_get (indegrees g) v
  = if decide (mentioned g v) then Some (Int (Z.of_nat (in_degree g v))) else None.
Proof.
  induction g as [|[node neighbours] g IH] using rev_ind; intros Hsets.
  { rewrite decide_False; [done|].
    rewrite mentioned_alt. by intros [?%elem_of_nil|(? & ?%elem_of_nil & _)]. }
  rewrite indegrees_snoc. cbv zeta.
  rewrite map_get_count_neighbours
    by (apply (Hsets (node, neighbours)), elem_of_app; right; apply list_elem_of_here).
  assert (map_get (if map_has (indegrees g) node then indegrees g
                   else map_set (indegrees g) node (Int 0)) v
          = match map_get (indegrees g) v with
            | Some c => Some c
            | None => if decide (v = node) then Some (Int 0) else None
            end) as ->.
  { clear IH. unfold map_has. case_bool_decide as Hhas.
    - destruct (map_get (indegrees g) v) eqn:Hv; [done|].
      destruct (decide (v = node)) as [->|]; [|done].
      rewrite Hv in Hhas. by destruct Hhas.
    - rewrite map_get_set.
      destruct (decide (v = node)) as [->|]; [|by destruct (map_get _ v)].
      apply eq_None_not_Some in Hhas. by rewrite Hhas. }
  rewrite IH by (intros e He; apply Hsets, elem_of_app; by left).
  rewrite in_degree_snoc.
  destruct (decide (mentioned g v)) as [Hm|Hm].
  - rewrite (decide_True (P := mentioned (_ ++ _) v)) by (apply mentioned_snoc; by left).
    case_decide; simpl; do 2 f_equal; lia.
  - rewrite (in_degree_unmentioned g v Hm).
    destruct (decide (v = node)) as [->|Hne].
    + rewrite (decide_True (P := mentioned (_ ++ _) node))
        by (apply mentioned_snoc; by right; left).
      by case_decide.
    + destruct (decide (v ∈ neighbours)) as [Hv|Hv].
      * rewrite decide_True by (apply mentioned_snoc; by right; right). done.
      * rewrite decide_False; [done|]. rewrite mentioned_snoc. intuition auto.
Qed.

Lemma NoDup_map_keys_indegrees g : NoDup (map_keys (indegrees g)).
Proof.
  induction g as [|[node neighbours] g IH] using rev_ind; [apply NoDup_nil_2|].
  rewrite indegrees_snoc. cbv zeta.
  assert (NoDup (map_keys (if map_has (indegrees g) node then indegrees g
                           else map_set (indegrees g) node (Int 0)))) as Hnd.
  { destruct (map_has _ node); [done | by apply NoDup_map_keys_set]. }
  revert Hnd. generalize (if map_has (indegrees g) node then indegrees g
                          else map_set (indegrees g) node (Int 0)).
  induction neighbours as [|n ns IHns]; intros D HD; simpl; [done|].
  by apply IHns, NoDup_map_keys_set.
Qed.

(** In a graph whose destinations are keys, the mentioned nodes are the
    keys. *)
Lemma mentioned_closed g v :
  NoDup (map_keys g) → closed g → mentioned g v ↔ node g v.
Proof.
  intros Hg Hclosed. rewrite mentioned_alt. split; [|by left].
  intros [?|([a deps] & He & Hv)]; [done|].
  apply (Hclosed a). exists deps. split; [by apply elem_of_map_get | done].
Qed.

Lemma well_formed_sets g e : well_formed g → e ∈ g → NoDup e.2.
Proof.
  intros [Hkeys Hsets] He. destruct e as [a deps].
  apply (Hsets a). by apply elem_of_map_get.
Qed.

(** The first work list of [topoSort]: the nodes of in-degree zero. *)
Lemma elem_of_sources g v :
  well_formed g → closed g →
  v ∈ (filter (λ e, e.2 = Int 0) (indegrees g)).*1
  ↔ node g v ∧ in_degree g v = 0.
Proof.
  intros Hwf Hclosed.
  pose proof (map_get_indegrees g v (λ e, well_formed_sets g e Hwf)) as Hget.
  rewrite list_elem_of_fmap. split.
  - intros ([v' c] & -> & [Hc He]%list_elem_of_filter). simpl in *. subst c.
    apply elem_of_map_get in He; [|apply NoDup_map_keys_indegrees].
    rewrite He in Hget. destruct (decide (mentioned g v')) as [Hm|]; [|done].
    split; [apply mentioned_closed; by destruct Hwf|].
    injection Hget. lia.
  - intros [Hv Hz]. exists (v, Int 0). split; [done|].
    apply list_elem_of_filter. split; [done|].
    apply elem_of_map_get; [apply NoDup_map_keys_indegrees|].
    rewrite Hget, decide_True by by left. by rewrite Hz.
Qed.

Lemma NoDup_sources g :
  NoDup (filter (λ e, e.2 = Int 0) (indegrees g)).*1.
Proof.
  eapply sublist_NoDup; [apply NoDup_map_keys_indegrees|].
  apply fmap_sublist, sublist_filter.
Qed.
End Indegrees.

(** ** [topoSort] *)

Section TopoSort.
Context {T : Type} `{EqDecision T}.
Implicit Types g : list (T * list T).
Implicit Types inDegrees : list (T * number).

Lemma minus_one_zero (x : option number) : minus_one x = Int 0 ↔ x = Some (Int 1).
Proof.
  destruct x as [[z|]|]; simpl; split; try done.
  - intros [= Hz]. do 2 f_equal. lia.
  - by intros [= ->].
Qed.

Lemma release_eq (sources : list T) inDegrees neighbour :
  release (sources, inDegrees) neighbour
  = (sources ++ (if decide (map_get inDegrees neighbour = Some (Int 1))
                 then [neighbour] else []),
     map_set inDegrees neighbour (minus_one (map_get inDegrees neighbour))).
Proof.
  unfold release.
  destruct (decide (minus_one _ = Int 0)) as [Hz|Hz]; rewrite minus_one_zero in Hz.
  - by rewrite decide_True.
  - by rewrite decide_False, app_nil_r.
Qed.

(** The [for] loop over the neighbours of a popped node: each neighbour
    loses one from its count, and those that reach zero are pushed, in
    order. *)
Lemma foldl_release (sources : list T) inDegrees neighbours :
  NoDup neighbours →
  (foldl release (sources, inDegrees) neighbours).1
  = sources ++ filter (λ d, map_get inDegrees d = Some (Int 1)) neighbours
  ∧ ∀ v, map_get (foldl release (sources, inDegrees) neighbours).2 v
         = if decide (v ∈ neighbours)
           then Some (minus_one (map_get inDegrees v))
           else map_get inDegrees v.
Proof.
  revert sources inDegrees.
  induction neighbours as [|d ds IH]; intros S D Hnd; cbn [foldl].
  - by rewrite app_nil_r.
  - apply NoDup_cons in Hnd as [Hd Hds]. rewrite release_eq.
    destruct (IH (S ++ (if decide (map_get D d = Some (Int 1)) then [d] else []))
                 (map_set D d (minus_one (map_get D d))) Hds) as [-> Hget].
    split.
    + rewrite filter_cons, <-(assoc_L (++)). f_equal.
      rewrite (filter_iff_in _ (λ x, map_get D x = Some (Int 1)) ds).
      * by destruct (decide (map_get D d = Some (Int 1))).
      * intros x Hx. rewrite map_get_set, decide_False; [done|]. by intros ->.
    + intros v. rewrite Hget, map_get_set.
      destruct (decide (v = d)) as [->|Hne].
      * rewrite decide_False by done.
        rewrite decide_True; [done | apply list_elem_of_here].
      * apply decide_ext. rewrite elem_of_cons. intuition auto.
Qed.

(** The in-degree of [v] that is left once the edges out of the nodes of
    [ordering] are removed. *)
Definition remaining g (ordering : list T) (v : T) : nat :=
  length (filter (λ e, (fst e ∉ ordering) ∧ v ∈ e.2) g).

Lemma remaining_nil g v : remaining g [] v = in_degree g v.
Proof.
  unfold remaining, in_degree. f_equal. apply list_filter_iff.
  intros e. split; [by intros [_ ?] | split; [apply not_elem_of_nil | done]].
Qed.

Lemma remaining_zero g ordering a v :
  NoDup (map_keys g) → remaining g ordering v = 0 → edge g a v → a ∈ ordering.
Proof.
  intros Hg Hz (deps & He & Hv). apply elem_of_map_get in He; [|done].
  destruct (decide (a ∈ ordering)) as [|Ha]; [done|].
  apply length_zero_iff_nil in Hz.
  eapply (filter_nil_not_elem_of _ _ (a, deps)) in Hz; done.
Qed.

Lemma remaining_pos g ordering v :
  NoDup (map_keys g) → remaining g ordering v ≠ 0 →
  ∃ u, (u ∉ ordering) ∧ edge g u v.
Proof.
  intros Hg Hz. unfold remaining in Hz.
  destruct (filter _ g) as [|[u deps] l] eqn:Hf; [done|].
  assert ((u, deps) ∈ filter (λ e, (fst e ∉ ordering) ∧ v ∈ e.2) g) as Hu
    by (rewrite Hf; apply list_elem_of_here).
  apply list_elem_of_filter in Hu as [[Hu Hv] He]. simpl in *.
  exists u. split; [done|]. exists deps. split; [by apply elem_of_map_get | done].
Qed.

Lemma remaining_other (l : list (T * list T)) ordering n v :
  n ∉ l.*1 →
  length (filter (λ e, (fst e ∉ ordering) ∧ v ∈ e.2) l)
  = length (filter (λ e, (fst e ∉ ordering ++ [n]) ∧ v ∈ e.2) l).
Proof.
  intros Hn. f_equal. apply filter_iff_in. intros [a deps] He. simpl.
  rewrite elem_of_app, list_elem_of_singleton.
  split; [|intuition auto]. intros [Ha Hv]. split; [|done].
  intros [?| ->]; [done|]. apply Hn. apply list_elem_of_fmap. by exists (n, deps).
Qed.

(** Emitting [n] takes one from the count of each of its neighbours. *)
Lemma remaining_snoc g ordering n deps v :
  NoDup (map_keys g) → map_get g n = Some deps → n ∉ ordering →
  remaining g ordering v
  = remaining g (ordering ++ [n]) v + (if decide (v ∈ deps) then 1 else 0).
Proof.
  unfold remaining, map_keys. induction g as [|[a deps'] g IH]; csimpl; [done|].
  intros [Ha Hg]%NoDup_cons. rewrite !filter_cons. simpl.
  destruct (decide (n = a)) as [->|Hne].
  - intros [= ->] Hn. pose proof (remaining_other g ordering a v Ha) as Hother.
    rewrite (decide_False (P := (a ∉ ordering ++ [a]) ∧ _)).
    2:{ intros [Hna _]. apply Hna, elem_of_app. right. apply list_elem_of_here. }
    destruct (decide (v ∈ deps)).
    + rewrite decide_True by done. simpl. lia.
    + rewrite decide_False by (by intros [_ ?]). lia.
  - intros Hget Hn. specialize (IH Hg Hget Hn).
    assert ((a ∉ ordering) ∧ v ∈ deps' ↔ (a ∉ ordering ++ [n]) ∧ v ∈ deps') as Hiff.
    { rewrite elem_of_app, list_elem_of_singleton. intuition auto. }
    destruct (decide ((a ∉ ordering) ∧ v ∈ deps')) as [Hd|Hd].
    + rewrite decide_True by by apply Hiff. simpl. lia.
    + rewrite decide_False by by rewrite <-Hiff. done.
Qed.

Lemma before_app_l (a b : T) (l k : list T) : before a b l → before a b (l ++ k).
Proof.
  intros (i & j & Hi & Hj & Hij). exists i, j.
  split_and!; [| |done]; by apply lookup_app_l_Some.
Qed.

Lemma before_snoc (a b : T) (l : list T) : a ∈ l → before a b (l ++ [b]).
Proof.
  intros [i Hi]%list_elem_of_lookup. exists i, (length l). split_and!.
  - by apply lookup_app_l_Some.
  - by rewrite lookup_app_r, Nat.sub_diag.
  - by eapply lookup_lt_Some.
Qed.

Lemma before_elem_of_l (a b : T) (l : list T) : before a b l → a ∈ l.
Proof. intros (i & j & Hi & _). by eapply list_elem_of_lookup_2. Qed.

(** What every turn of the loop of [topoSort] keeps. The ordering and the
    work list share no node and repeat none; they hold keys only; the
    table holds for every key the in-degree that is left; the keys not
    yet emitted that wait in the work list are those with nothing left;
    and whoever has an edge into an emitted node was emitted before it. *)
Definition topoSort_invariant g
    (st : list T * list (T * number) * list T) : Prop :=
  NoDup (st.2 ++ st.1.1)
  ∧ (∀ v, v ∈ st.2 ++ st.1.1 → node g v)
  ∧ (∀ v, node g v →
          map_get st.1.2 v = Some (Int (Z.of_nat (remaining g st.2 v))))
  ∧ (∀ v, node g v → v ∉ st.2 → (v ∈ st.1.1 ↔ remaining g st.2 v = 0))
  ∧ (∀ a b, edge g a b → b ∈ st.2 → before a b st.2).

(** What holds of the ordering when the loop is left. *)
Definition topoSort_post g (ordering : list T) : Prop :=
  NoDup ordering
  ∧ (∀ v, v ∈ ordering → node g v)
  ∧ (∀ v, node g v → v ∉ ordering → remaining g ordering v ≠ 0)
  ∧ (∀ a b, edge g a b → b ∈ ordering → before a b ordering).

Lemma topoSort_invariant_turn g st :
  well_formed g → closed g → topoSort_invariant g st →
  match topoSort_turn g st with
  | inl st' => topoSort_invariant g st'
  | inr ordering => topoSort_post g ordering
  end.
Proof.
  intros [Hkeys Hsets] Hclosed. destruct st as [[S D] O].
  intros (Hnd & Hnodes & Hget & Hsrc & Hord). simpl in *.
  destruct (pop S) as [[S' n]|] eqn:Hpop.
  2:{ apply pop_None in Hpop as ->. rewrite app_nil_r in *.
      split_and!; [done..| |done].
      intros v Hv HvO Hz. by apply (Hsrc v Hv HvO) in Hz as ?%elem_of_nil. }
  apply pop_Some in Hpop as ->.
  assert (node g n) as Hn.
  { apply Hnodes. rewrite !elem_of_app, list_elem_of_singleton. auto. }
  destruct (proj1 (node_is_Some g n) Hn) as [ds Hds]. rewrite Hds. simpl.
  pose proof (Hsets n ds Hds) as Hdsnd.
  destruct (foldl_release S' D ds Hdsnd) as [HS'' HD''].
  destruct (foldl release (S', D) ds) as [S'' D'']. simpl in HS'', HD''. subst S''.
  rewrite (assoc_L (++)) in Hnd.
  apply NoDup_app in Hnd as (HndOS & HnOS & _).
  apply NoDup_app in HndOS as (HndO & HOS & HndS).
  assert (n ∉ O) as HnO.
  { intros HO. apply (HnOS n); [apply elem_of_app; by left | apply list_elem_of_here]. }
  assert (n ∉ S') as HnS.
  { intros HS. apply (HnOS n); [apply elem_of_app; by right | apply list_elem_of_here]. }
  pose proof (λ v, remaining_snoc g O n ds v Hkeys Hds HnO) as Hrem.
  assert (∀ d, d ∈ ds → edge g n d) as Hedge by (intros d ?; by exists ds).
  assert (∀ d, d ∈ ds → d ∉ O) as HdO.
  { intros d Hd HO. by apply HnO, (before_elem_of_l n d), Hord, HO; apply Hedge. }
  assert (∀ d, d ∈ ds → (d ∉ S') ∧ d ≠ n) as HdS.
  { intros d Hd.
    assert (d ∉ S' ++ [n]) as HdSn.
    { intros HS. apply (Hsrc d) in HS; [| by eapply Hclosed, Hedge | by apply HdO].
      specialize (Hrem d). rewrite decide_True in Hrem by done. lia. }
    rewrite elem_of_app, list_elem_of_singleton in HdSn. split; intros ?; apply HdSn; auto. }
  assert (∀ v, node g v →
            v ∈ filter (λ d, map_get D d = Some (Int 1)) ds
            ↔ v ∈ ds ∧ remaining g (O ++ [n]) v = 0) as Hpushed.
  { intros v Hv. rewrite list_elem_of_filter, (Hget v Hv). specialize (Hrem v).
    split.
    - intros [[= Hone] Hvd]. split; [done|]. rewrite decide_True in Hrem by done. lia.
    - intros [Hvd Hz]. split; [|done]. rewrite decide_True in Hrem by done.
      do 2 f_equal. lia. }
  split_and!; cbn [fst snd].
  - rewrite <-(assoc_L (++)). apply NoDup_app. split_and!; [done| |].
    + intros v Hv [->%list_elem_of_singleton|[HvS|Hvf]%elem_of_app]%elem_of_app.
      * done.
      * by apply (HOS v).
      * apply list_elem_of_filter in Hvf as [_ Hvd]. by apply (HdO v).
    + apply NoDup_app. split_and!; [apply NoDup_singleton| |].
      * intros v ->%list_elem_of_singleton [?|Hvf]%elem_of_app; [done|].
        apply list_elem_of_filter in Hvf as [_ Hvd]. by destruct (HdS n Hvd).
      * apply NoDup_app. split_and!; [done| |by apply NoDup_filter].
        intros v HvS [_ Hvd]%list_elem_of_filter. by destruct (HdS v Hvd).
  - intros v. rewrite !elem_of_app, list_elem_of_singleton, list_elem_of_filter.
    intros [[?| ->]|[?|[_ ?]]]; [| done | |by eapply Hclosed, Hedge];
      apply Hnodes; rewrite !elem_of_app; auto.
  - intros v Hv. rewrite HD'', (Hget v Hv). specialize (Hrem v).
    destruct (decide (v ∈ ds)); simpl; do 2 f_equal; lia.
  - intros v Hv HvO. rewrite elem_of_app, list_elem_of_singleton in HvO.
    rewrite elem_of_app, (Hpushed v Hv). specialize (Hrem v).
    destruct (decide (v ∈ ds)) as [Hvd|Hvd].
    + split; [intros [?|[_ ?]]; [by destruct (HdS v Hvd)|done] | by right].
    + rewrite Nat.add_0_r in Hrem. rewrite <-Hrem, <-(Hsrc v Hv) by auto.
      rewrite elem_of_app, list_elem_of_singleton.
      split; [intros [?|[? _]]; [by left | done] | intros [?|?]; [by left | by destruct HvO; right]].
  - intros a b Hab [HbO| ->%list_elem_of_singleton]%elem_of_app.
    + by apply before_app_l, Hord.
    + apply before_snoc. apply (remaining_zero g O a n Hkeys); [|done].
      apply (Hsrc n Hn HnO). rewrite elem_of_app, list_elem_of_singleton. auto.
Qed.

(** Keys left over with something left for each of them lie on or behind
    a cycle. *)
Lemma unemitted_cycle g (ordering : list T) :
  NoDup (map_keys g) →
  (∀ v, node g v → v ∉ ordering → remaining g ordering v ≠ 0) →
  (∃ v, node g v ∧ v ∉ ordering) → cyclic g.
Proof.
  intros Hkeys Hleft (v0 & Hv0 & Hv0O).
  apply (cycle_of_predecessors (edge g) (filter (λ v, v ∉ ordering) (map_keys g))).
  - intros Hnil. exact (filter_nil_not_elem_of _ _ v0 Hnil Hv0O Hv0).
  - intros v [HvO Hv]%list_elem_of_filter.
    destruct (remaining_pos g ordering v Hkeys (Hleft v Hv HvO)) as (u & HuO & Huv).
    exists u. split; [|done]. apply list_elem_of_filter. split; [done|].
    by eapply edge_node_l.
Qed.

Lemma topoSort_loop_post g :
  well_formed g → closed g →
  topoSort_post g
    (while (topoSort_turn g) (topoSort_terminates g)
       ((filter (λ e, e.2 = Int 0) (indegrees g)).*1, indegrees g, [])).
Proof.
  intros Hwf Hclosed.
  apply (while_rule (topoSort_turn g) (topoSort_invariant g) (topoSort_post g)).
  { intros st. by apply topoSort_invariant_turn. }
  pose proof Hwf as [Hkeys _].
  split_and!; cbn [fst snd]; simpl.
  - apply NoDup_sources.
  - by intros v [Hv _]%elem_of_sources.
  - intros v Hv.
    rewrite map_get_indegrees by (intros e; by apply well_formed_sets).
    rewrite decide_True by by left. by rewrite remaining_nil.
  - intros v Hv _. rewrite remaining_nil, elem_of_sources by done. intuition auto.
  - by intros a b _ ?%elem_of_nil.
Qed.

(** [topoSort] on a non-empty acyclic graph whose destinations are keys:
    both assertions hold, and the ordering holds every key once, each
    after all the keys with an edge into it; so it starts with a key of
    in-degree zero. *)
Lemma topoSort_acyclic g :
  well_formed g → closed g → g ≠ [] → acyclic g →
  ∃ ordering,
    topoSort g = Ok ordering
    ∧ NoDup ordering
    ∧ (∀ v, v ∈ ordering ↔ node g v)
    ∧ (∀ a b, edge g a b → before a b ordering)
    ∧ (∀ v, head ordering = Some v → in_degree g v = 0).
Proof.
  intros Hwf Hclosed Hne Hacyclic. pose proof Hwf as [Hkeys _].
  pose proof (topoSort_loop_post g Hwf Hclosed) as (Hnd & Hnodes & Hleft & Hord).
  unfold topoSort. cbv zeta.
  set (sources := (filter (λ e, e.2 = Int 0) (indegrees g)).*1) in *.
  set (ordering := while _ _ _) in *.
  rewrite decide_True.
  2:{ destruct sources as [|s sources'] eqn:Hs; [|simpl; lia].
      destruct Hacyclic. apply (unemitted_cycle g []); [done| |].
      - intros v Hv _. rewrite remaining_nil. intros Hz.
        assert (v ∈ sources) as Hin by (by apply elem_of_sources).
        rewrite Hs in Hin. by apply elem_of_nil in Hin.
      - destruct g as [|[a deps] g']; [done|]. exists a.
        split; [apply list_elem_of_here | apply not_elem_of_nil]. }
  assert (∀ v, node g v → v ∈ ordering) as Hall.
  { intros v Hv. destruct (decide (v ∈ ordering)) as [|HvO]; [done|].
    destruct Hacyclic. apply (unemitted_cycle g ordering); eauto. }
  assert (length ordering = length g) as Hlen.
  { rewrite <-(length_map_keys g). apply Permutation_length.
    apply NoDup_Permutation; [done..|]. intros v. split; [apply Hnodes | apply Hall]. }
  rewrite decide_True by done.
  exists ordering. split_and!; [done|done| |..].
  - intros v. split; [apply Hnodes | apply Hall].
  - intros a b Hab. apply Hord; [done|]. by eapply Hall, Hclosed.
  - intros v Hhead.
    destruct (decide (in_degree g v = 0)) as [|Hdeg]; [done|].
    assert (v ∈ ordering) as Hv by (by eapply head_Some_elem_of).
    rewrite <-remaining_nil in Hdeg.
    destruct (remaining_pos g [] v Hkeys Hdeg) as (u & _ & Huv).
    destruct (Hord u v Huv Hv) as (i & j & Hi & Hj & Hij).
    rewrite head_lookup in Hhead.
    pose proof (NoDup_lookup ordering j 0 v Hnd Hj Hhead). lia.
Qed.

(** [topoSort] on a graph without a key of in-degree zero: the first
    assertion fails. *)
Lemma topoSort_without_source g :
  well_formed g → closed g → (∀ v, node g v → 1 ≤ in_degree g v) →
  topoSort g = Throw (AssertionError no_source).
Proof.
  intros Hwf Hclosed Hdeg. unfold topoSort. cbv zeta.
  destruct ((filter (λ e, e.2 = Int 0) (indegrees g)).*1) as [|s sources] eqn:Hs;
    [by rewrite decide_False by (simpl; lia)|].
  assert (s ∈ (filter (λ e, e.2 = Int 0) (indegrees g)).*1) as Hin
    by (rewrite Hs; apply list_elem_of_here).
  apply elem_of_sources in Hin as [Hnode Hz]; [|done..].
  specialize (Hdeg s Hnode). lia.
Qed.
End TopoSort.

(** ** The engine on graphs that were built *)

Section Built.
Context {T : Type} `{EqDecision T}.
Implicit Types calls : list (T * list T).

(** C1. On every non-empty acyclic graph that was built, [topoSort]
    returns a sequence that holds every node exactly once and in which,
    for every edge [A → B], [A] comes before [B]; so the sequence starts
    with a node of in-degree zero. *)
Theorem topoSort_valid calls :
  build calls ≠ [] → acyclic (build calls) →
  ∃ ordering,
    topoSort (build calls) = Ok ordering
    ∧ NoDup ordering
    ∧ (∀ v, v ∈ ordering ↔ node (build calls) v)
    ∧ (∀ a b, edge (build calls) a b → before a b ordering)
    ∧ (∀ v, head ordering = Some v → in_degree (build calls) v = 0).
Proof.
  apply topoSort_acyclic; [apply well_formed_build | apply closed_build].
Qed.

(** C5. Node closure: after every sequence of [addAll] calls, and so after
    each call of the sequence, every node that is a destination in some
    edge set is a key of the map. *)
Theorem addAll_node_closure calls (n : nat) : closed (build (take n calls)).
Proof. apply closed_build. Qed.

(** C6. For a graph [G] that was built, [invert(invert(G))] has the nodes
    and the edges of [G]; [invert(G)] has the nodes of [G], also those
    without edges, and has the edge [B → A] exactly when [G] has
    [A → B]. *)
Theorem invert_involutive calls :
  let G := build calls in
  (∀ v, node (invert (invert G)) v ↔ node G v)
  ∧ (∀ a b, edge (invert (invert G)) a b ↔ edge G a b)
  ∧ (∀ v, node (invert G) v ↔ node G v)
  ∧ (∀ a b, edge (invert G) b a ↔ edge G a b).
Proof.
  intros G.
  pose proof (well_formed_build calls) as [HG _].
  pose proof (closed_build calls) as HGc.
  pose proof (well_formed_invert G) as [HI _].
  pose proof (closed_invert G) as HIc.
  split_and!; intros.
  - by rewrite !node_invert.
  - by rewrite !edge_invert.
  - by rewrite node_invert.
  - by rewrite edge_invert.
Qed.

(** C7. On a graph that was built, [walk(start)] from a key returns a set
    that holds exactly the nodes reachable from [start] along outgoing
    edges, [start] among them. *)
Theorem walk_reachable calls (start : T) :
  node (build calls) start →
  ∃ seen,
    walk (build calls) start = Ok seen
    ∧ NoDup seen
    ∧ start ∈ seen
    ∧ ∀ v, v ∈ seen ↔ reachable (build calls) start v.
Proof.
  intros Hstart.
  destruct (walk_closed (build calls) start) as (seen & Hwalk & Hnd & Hseen);
    [apply closed_build | done |].
  exists seen. split_and!; [done..| |done]. apply Hseen, rtc_refl.
Qed.

(** C8. On a graph that was built and in which every node has in-degree
    at least 1 (a non-empty one in particular), [topoSort] fails its
    first assertion, that there is a source, and returns no ordering. *)
Theorem topoSort_no_source calls :
  (∀ v, node (build calls) v → 1 ≤ in_degree (build calls) v) →
  topoSort (build calls) = Throw (AssertionError no_source).
Proof.
  apply topoSort_without_source; [apply well_formed_build | apply closed_build].
Qed.

(** C9. On the empty graph [topoSort] does not return the empty
    ordering: the assertion that there is a source is made whatever the
    graph, and fails, with the message of the case without a node of
    in-degree zero. *)
Theorem topoSort_empty :
  topoSort (build ([] : list (T * list T))) = Throw (AssertionError no_source).
Proof. reflexivity. Qed.

(** C10. On a graph that was built, cycles and self-loops included, the
    loop of [walk] cannot turn for ever, whatever its work list and
    [seen], and [walk(start)] from a key returns a set. *)
Theorem walk_terminates_on_built calls (start : T) :
  node (build calls) start →
  well_founded (iterates (walk_turn (build calls)))
  ∧ ∃ seen, walk (build calls) start = Ok seen.
Proof.
  intros Hstart. split; [apply walk_terminates|].
  destruct (walk_closed (build calls) start) as (seen & Hwalk & _);
    [apply closed_build | done |].
  by exists seen.
Qed.
End Built.

(** ** The example of the README *)

Section Readme.
Open Scope string_scope.

(** The manifests of the example: [one] depends on [two] and [three],
    which both depend on [four]. They are listed in the order in which
    the README's rendering shows them to have been read. *)
Definition readme_manifests : list (string * list string) :=
  [("three", ["four"]); ("four", []); ("one", ["two"; "three"]); ("two", ["four"])].

(** The place of [v] in [l]. *)
Fixpoint position (l : list string) (v : string) : nat :=
  match l with
  | [] => 0
  | x :: l => if decide (v = x) then 0 else S (position l v)
  end.

(** A decidable statement about closed values holds when its decision
    evaluates to true. *)
Ltac by_evaluation := apply (bool_decide_unpack _); vm_compute; exact I.

Lemma readme_acyclic : acyclic (build readme_manifests).
Proof.
  apply (acyclic_forward _ (position ["one"; "two"; "three"; "four"])).
  by_evaluation.
Defined.

(** Two packages that depend on each other, and the same with a
    dependency of [x] on itself. *)
Definition mutual_manifests : list (string * list string) :=
  [("x", ["y"]); ("y", ["x"])].

Definition looping_manifests : list (string * list string) :=
  [("x", ["y"; "x"]); ("y", ["x"])].

Lemma topoSort_valid_witness :
  build readme_manifests ≠ []
  ∧ acyclic (build readme_manifests)
  ∧ ∃ ordering,
      topoSort (build readme_manifests) = Ok ordering
      ∧ NoDup ordering
      ∧ (∀ v, v ∈ ordering ↔ node (build readme_manifests) v)
      ∧ (∀ a b, edge (build readme_manifests) a b → before a b ordering)
      ∧ (∀ v, head ordering = Some v → in_degree (build readme_manifests) v = 0).
Proof.
  assert (build readme_manifests ≠ []) as Hne by (vm_compute; discriminate).
  split_and!; [done | apply readme_acyclic |].
  apply (topoSort_valid readme_manifests); [done | apply readme_acyclic].
Defined.

Lemma walk_reachable_witness :
  node (build readme_manifests) "one"
  ∧ ∃ seen,
      walk (build readme_manifests) "one" = Ok seen
      ∧ NoDup seen
      ∧ "one" ∈ seen
      ∧ ∀ v, v ∈ seen ↔ reachable (build readme_manifests) "one" v.
Proof.
  assert (node (build readme_manifests) "one") as Hnode by by_evaluation.
  split; [done|]. by apply (walk_reachable readme_manifests "one").
Defined.

Lemma topoSort_no_source_witness :
  (∀ v, node (build mutual_manifests) v
        → (1 ≤ in_degree (build mutual_manifests) v)%nat)
  ∧ topoSort (build mutual_manifests) = Throw (AssertionError no_source).
Proof.
  assert (∀ v, node (build mutual_manifests) v
               → (1 ≤ in_degree (build mutual_manifests) v)%nat) as Hdeg.
  { intros v Hv. change (v ∈ ["x"; "y"]) in Hv.
    apply elem_of_cons in Hv as [->|Hv]; [by_evaluation|].
    apply elem_of_cons in Hv as [->|Hv]; [by_evaluation|].
    by apply elem_of_nil in Hv. }
  split; [done|]. by apply (topoSort_no_source mutual_manifests).
Defined.

Lemma walk_terminates_on_built_witness :
  node (build looping_manifests) "x"
  ∧ well_founded (iterates (walk_turn (build looping_manifests)))
  ∧ ∃ seen, walk (build looping_manifests) "x" = Ok seen.
Proof.
  assert (node (build looping_manifests) "x") as Hnode by by_evaluation.
  split; [done|]. by apply (walk_terminates_on_built looping_manifests "x").
Defined.

(** C4. For the graph of the README, whatever the order in which its
    four manifests are read, with entrypoint [four]: [invert], [walk]
    from [four], [subgraph] on what was walked and [topoSort] yield
    [one, three, two, four]. *)
Theorem readme_topo_order manifests :
  manifests ≡ₚ readme_manifests →
  (graph ← entrypoint_subgraph (build manifests) "four"; topoSort graph)
  = Ok ["one"; "three"; "two"; "four"].
Proof.
  intros Hperm. symmetry in Hperm. apply permutations_Permutation in Hperm.
  revert manifests Hperm. apply Forall_forall. by_evaluation.
Qed.

Lemma readme_topo_order_witness :
  readme_manifests ≡ₚ readme_manifests
  ∧ (graph ← entrypoint_subgraph (build readme_manifests) "four"; topoSort graph)
    = Ok ["one"; "three"; "two"; "four"].
Proof.
  split; [reflexivity|]. apply (readme_topo_order readme_manifests). reflexivity.
Defined.

(** C2, at the graph of the README: it has no cycle, its two paths from
    [one] to [four] make the walk from [one] meet [four] twice, and
    [isCyclic] returns [true]. (On a graph that has a cycle [isCyclic]
    does return [true]; see [isCyclic_cyclic].) *)
Theorem isCyclic_readme :
  acyclic (build readme_manifests)
  ∧ isCyclic (build readme_manifests) = Ok true.
Proof. split; [apply readme_acyclic | reflexivity]. Qed.

(** C3, at the README's example without a mode argument: [Mode.ALL] is
    [TOPO & VIZ], which is 0, so neither test of the mode passes and
    [main] prints nothing, where [topo] and [viz] each print. *)
Theorem main_no_mode :
  Mode.ALL = 0%Z
  ∧ truthy (Z.land Mode.ALL Mode.TOPO) = false
  ∧ truthy (Z.land Mode.ALL Mode.VIZ) = false
  ∧ main ["node"; "main.js"; "four"] readme_manifests = Ok []
  ∧ (∃ out, main ["node"; "main.js"; "four"; "topo"] readme_manifests = Ok [out])
  ∧ (∃ out, main ["node"; "main.js"; "four"; "viz"] readme_manifests = Ok [out]).
Proof. split_and!; [reflexivity..| |]; eexists; vm_compute; reflexivity. Qed.
End Readme.

(** * Further properties of the engine *)

(** ** [Sets.addAll] and [addAll] *)

Section BuilderMore.
Context {T : Type} `{EqDecision T}.
Implicit Types g calls : list (T * list T).

Lemma Sets_addAll_prefix (s xs : list T) : s `prefix_of` Sets.addAll s xs.
Proof.
  unfold Sets.addAll. revert s. induction xs as [|x xs IH]; intros s; simpl; [done|].
  etrans; [|apply IH]. unfold set_add. destruct (set_has s x); [done|].
  by apply prefix_app_r.
Qed.

(** X16. [Sets.addAll(s, xs)] leaves a set that holds what [s] held and the
    elements of [xs], nothing else and nothing twice, with the elements
    of [s] still first and in their order. *)
Theorem Sets_addAll_spec (s xs : list T) :
  (NoDup (Sets.addAll s xs) ↔ NoDup s)
  ∧ (∀ y, y ∈ Sets.addAll s xs ↔ y ∈ s ∨ y ∈ xs)
  ∧ s `prefix_of` Sets.addAll s xs.
Proof.
  split_and!; [|intros; apply elem_of_Sets_addAll | apply Sets_addAll_prefix].
  split; [|apply NoDup_Sets_addAll].
  intros Hnd. destruct (Sets_addAll_prefix s xs) as [k Hk].
  rewrite Hk in Hnd. by apply NoDup_app in Hnd as [? _].
Qed.

Lemma Sets_addAll_known (s xs : list T) :
  (∀ x, x ∈ xs → x ∈ s) → Sets.addAll s xs = s.
Proof.
  unfold Sets.addAll. induction xs as [|x xs IH]; intros Hxs; simpl; [done|].
  rewrite set_add_seen by (apply Hxs, list_elem_of_here).
  apply IH. intros y Hy. by apply Hxs, list_elem_of_further.
Qed.

Lemma map_set_same {V} (m : list (T * V)) k v :
  map_get m k = Some v → map_set m k v = m.
Proof.
  induction m as [|[k' v'] m IH]; simpl; [done|].
  case_decide; [by intros [= ->]; subst | intros Hm; by rewrite IH].
Qed.

Lemma ensureAll_known g nodes :
  (∀ v, v ∈ nodes → node g v) → ensureAll g nodes = g.
Proof.
  unfold ensureAll. induction nodes as [|n nodes IH]; intros Hn; simpl; [done|].
  unfold map_has. rewrite bool_decide_true
    by (apply node_is_Some, Hn, list_elem_of_here).
  apply IH. intros v Hv. by apply Hn, list_elem_of_further.
Qed.

(** X15. The same [addAll] call a second time changes nothing, neither the
    sets nor the order of the keys. *)
Theorem addAll_idempotent g (from : T) (to : list T) :
  addAll (addAll g from to) from to = addAll g from to.
Proof.
  set (g' := addAll g from to).
  assert (map_get g' from = Some (Sets.addAll (default [] (map_get g from)) to))
    as Hfrom by (unfold g'; by rewrite map_get_addAll, decide_True).
  unfold addAll at 1. rewrite Hfrom.
  rewrite Sets_addAll_known by (intros x Hx; apply elem_of_Sets_addAll; by right).
  rewrite map_set_same by done.
  apply ensureAll_known. intros v Hv. apply node_addAll. by right; right.
Qed.

Lemma build_snoc calls (from : T) (to : list T) :
  build (calls ++ [(from, to)]) = addAll (build calls) from to.
Proof. unfold build. by rewrite foldl_snoc. Qed.

(** X14. A graph that was built has the edges that were added, and no other:
    [a → b] is an edge exactly when some call had the source [a] and [b]
    among its destinations; its nodes are the sources and destinations
    of the calls. *)
Theorem build_edges_nodes calls :
  (∀ a b, edge (build calls) a b ↔ ∃ to, (a, to) ∈ calls ∧ b ∈ to)
  ∧ (∀ v, node (build calls) v ↔ ∃ c, c ∈ calls ∧ (v = c.1 ∨ v ∈ c.2)).
Proof.
  induction calls as [|[from to] calls [IHe IHn]] using rev_ind.
  { split.
    - intros a b. split; [by intros (? & ? & _) | by intros (? & ?%elem_of_nil & _)].
    - intros v. split; [by intros ?%elem_of_nil | by intros (? & ?%elem_of_nil & _)]. }
  rewrite build_snoc. split.
  - intros a b. rewrite edge_addAll, IHe. split.
    + intros [(to' & ? & ?)|[-> ?]].
      * exists to'. rewrite elem_of_app. auto.
      * exists to. rewrite elem_of_app, list_elem_of_singleton. auto.
    + intros (to' & [?|[= -> ->]%list_elem_of_singleton]%elem_of_app & ?); eauto.
  - intros v. rewrite node_addAll, IHn. split.
    + intros [(c & ? & ?)|Hv].
      * exists c. rewrite elem_of_app. auto.
      * exists (from, to). rewrite elem_of_app, list_elem_of_singleton. auto.
    + intros (c & [?| ->%list_elem_of_singleton]%elem_of_app & ?); eauto.
Qed.
End BuilderMore.

(** ** [walk] from a node that is no key, and [subgraph] *)

Section Selection.
Context {T : Type} `{EqDecision T}.
Implicit Types g calls : list (T * list T).



Lemma subgraph_from_kept P (sub : list (T * list T)) g keep :
  kept_by_addAll P → P sub →
  P (foldl (λ subgraph '(node, deps),
              if set_has keep node
              then addAll subgraph node (filter (λ dep, dep ∈ keep) deps)
              else subgraph) sub g).
Proof.
  intros HP. revert sub. induction g as [|[n deps] g IH]; intros sub Hsub; simpl; [done|].
  apply IH. destruct (set_has keep n); [by apply HP | done].
Qed.

Lemma well_formed_subgraph g keep : well_formed (subgraph g keep).
Proof.
  apply (subgraph_from_kept well_formed); [|apply well_formed_empty].
  intros ???. apply well_formed_addAll.
Qed.

Lemma closed_subgraph g keep : closed (subgraph g keep).
Proof.
  apply (subgraph_from_kept closed); [|apply closed_empty].
  intros ???. apply closed_addAll.
Qed.

Lemma edge_subgraph_from (sub : list (T * list T)) g keep a b :
  edge (foldl (λ subgraph '(node, deps),
                 if set_has keep node
                 then addAll subgraph node (filter (λ dep, dep ∈ keep) deps)
                 else subgraph) sub g) a b
  ↔ edge sub a b ∨ ∃ deps, (a, deps) ∈ g ∧ a ∈ keep ∧ b ∈ deps ∧ b ∈ keep.
Proof.
  revert sub. induction g as [|[n deps] g IH]; intros sub; simpl.
  - split; [by left | by intros [?|(? & ?%elem_of_nil & _)]].
  - rewrite IH. unfold set_has. case_bool_decide as Hn.
    + rewrite edge_addAll, list_elem_of_filter. split.
      * intros [[?|[-> [??]]]|(deps' & ? & ?)]; [by left| |].
        -- right. exists deps. split; [apply list_elem_of_here | done].
        -- right. exists deps'. split; [by apply list_elem_of_further | done].
      * intros [?|(deps' & [[= -> ->]|?]%elem_of_cons & ? & ? & ?)]; [by auto|by auto|].
        right. by exists deps'.
    + split.
      * intros [?|(deps' & ? & ?)]; [by left|].
        right. exists deps'. split; [by apply list_elem_of_further | done].
      * intros [?|(deps' & [[= -> ->]|?]%elem_of_cons & ? & ?)]; [by left|done|].
        right. by exists deps'.
Qed.

Lemma node_subgraph_from (sub : list (T * list T)) g keep v :
  node (foldl (λ subgraph '(node, deps),
                 if set_has keep node
                 then addAll subgraph node (filter (λ dep, dep ∈ keep) deps)
                 else subgraph) sub g) v
  ↔ node sub v
    ∨ ∃ n deps, (n, deps) ∈ g ∧ n ∈ keep ∧ (v = n ∨ (v ∈ deps ∧ v ∈ keep)).
Proof.
  revert sub. induction g as [|[n deps] g IH]; intros sub; simpl.
  - split; [by left | by intros [?|(? & ? & ?%elem_of_nil & _)]].
  - rewrite IH. unfold set_has. case_bool_decide as Hn.
    + rewrite node_addAll, list_elem_of_filter. split.
      * intros [[?|Hv]|(n' & deps' & ? & ?)]; [by left| |].
        -- right. exists n, deps. split; [apply list_elem_of_here|].
           split; [done|]. destruct Hv as [?|[??]]; auto.
        -- right. exists n', deps'. split; [by apply list_elem_of_further | done].
      * intros [?|(n' & deps' & [[= -> ->]|?]%elem_of_cons & ? & Hv)]; [by auto| |].
        -- left. right. destruct Hv as [?|[??]]; auto.
        -- right. by exists n', deps'.
    + split.
      * intros [?|(n' & deps' & ? & ?)]; [by left|].
        right. exists n', deps'. split; [by apply list_elem_of_further | done].
      * intros [?|(n' & deps' & [[= -> ->]|?]%elem_of_cons & ? & ?)]; [by left|done|].
        right. by exists n', deps'.
Qed.

(** [subgraph(keep)] of a map without a key twice keeps the edges with
    both ends in [keep]; of a graph whose destinations are keys, it keeps
    the keys that are in [keep]. *)
Lemma edge_subgraph g keep a b :
  NoDup (map_keys g) →
  edge (subgraph g keep) a b ↔ edge g a b ∧ a ∈ keep ∧ b ∈ keep.
Proof.
  intros Hg. unfold subgraph. rewrite edge_subgraph_from, (edge_entry g) by done.
  split.
  - intros [(? & ? & _)|(deps & ? & ? & ? & ?)]; [done|]. eauto.
  - intros [(deps & ? & ?) [??]]. right. by exists deps.
Qed.

Lemma node_subgraph g keep v :
  NoDup (map_keys g) → closed g →
  node (subgraph g keep) v ↔ node g v ∧ v ∈ keep.
Proof.
  intros Hg Hclosed. unfold subgraph. rewrite node_subgraph_from. split.
  - intros [?%elem_of_nil|(n & deps & He & Hn & Hv)]; [done|].
    pose proof He as Hget. apply elem_of_map_get in Hget; [|done].
    destruct Hv as [->|[Hv ?]].
    + split; [by eapply map_get_Some_key | done].
    + split; [|done]. apply (Hclosed n). by exists deps.
  - intros [[deps Hget]%node_is_Some Hv]. right. exists v, deps.
    split; [by apply elem_of_map_get | auto].
Qed.

(** X4. The subgraph of a graph that was built is the one induced by [keep]:
    its nodes are the nodes in [keep], its edges the edges with both ends
    in [keep], and its destinations are keys again. *)
Theorem subgraph_induced calls (keep : list T) :
  let G := build calls in
  (∀ v, node (subgraph G keep) v ↔ node G v ∧ v ∈ keep)
  ∧ (∀ a b, edge (subgraph G keep) a b ↔ edge G a b ∧ a ∈ keep ∧ b ∈ keep)
  ∧ closed (subgraph G keep).
Proof.
  intros G. pose proof (well_formed_build calls) as [HG _].
  split_and!; intros.
  - apply node_subgraph; [done | apply closed_build].
  - by apply edge_subgraph.
  - apply closed_subgraph.
Qed.
End Selection.

(** ** [indegrees] and [topoSort], whatever the graph *)

Section TopoSortMore.
Context {T : Type} `{EqDecision T}.
Implicit Types g calls : list (T * list T).

(** X13. On a graph that was built, the table of [indegrees()] has an entry
    for each node and for nothing else, and the entry of a node is the
    number of edges that end at it. *)
Theorem indegrees_table calls (v : T) :
  map_get (indegrees (build calls)) v
  = if decide (node (build calls) v)
    then Some (Int (Z.of_nat (in_degree (build calls) v)))
    else None.
Proof.
  pose proof (well_formed_build calls) as Hwf. pose proof Hwf as [Hkeys _].
  rewrite map_get_indegrees by (intros e; by apply well_formed_sets).
  apply decide_ext, mentioned_closed; [done | apply closed_build].
Qed.

Lemma before_trans (a b c : T) (l : list T) :
  NoDup l → before a b l → before b c l → before a c l.
Proof.
  intros Hnd (i & j & Hi & Hj & Hij) (j' & k & Hj' & Hk & Hjk).
  pose proof (NoDup_lookup l j j' b Hnd Hj Hj'). subst j'.
  exists i, k. split_and!; [done..|lia].
Qed.

Lemma before_irrefl (a : T) (l : list T) : NoDup l → ¬ before a a l.
Proof.
  intros Hnd (i & j & Hi & Hj & Hij).
  pose proof (NoDup_lookup l i j a Hnd Hi Hj). lia.
Qed.

(** A duplicate-free sequence in which every edge leads forward orders
    every path, so the graph has no cycle. *)
Lemma before_tc g (l : list T) a b :
  NoDup l → (∀ a b, edge g a b → before a b l) →
  tc (edge g) a b → before a b l.
Proof.
  intros Hnd Hord. induction 1 as [a b ?|a b c ? _ IH]; [by apply Hord|].
  eapply before_trans; [done | by apply Hord | done].
Qed.

(** Whatever [topoSort] returns is a topological ordering. *)
Lemma topoSort_sound g ordering :
  well_formed g → closed g → topoSort g = Ok ordering →
  g ≠ [] ∧ acyclic g
  ∧ NoDup ordering
  ∧ (∀ v, v ∈ ordering ↔ node g v)
  ∧ (∀ a b, edge g a b → before a b ordering).
Proof.
  intros Hwf Hclosed. pose proof Hwf as [Hkeys _].
  pose proof (topoSort_loop_post g Hwf Hclosed) as (Hnd & Hnodes & _ & Hord).
  unfold topoSort. cbv zeta.
  set (sources := (filter (λ e, e.2 = Int 0) (indegrees g)).*1) in *.
  set (O := while _ _ _) in *.
  destruct (decide (0 < length sources)) as [Hsrc|]; [|done].
  destruct (decide (length O = length g)) as [Hlen|]; [|done].
  intros [= <-].
  assert (O ≡ₚ map_keys g) as Hperm.
  { apply submseteq_length_Permutation; [by apply NoDup_submseteq|].
    by rewrite length_map_keys, Hlen. }
  assert (∀ v, v ∈ O ↔ node g v) as Hall by (intros v; unfold node; by rewrite Hperm).
  assert (∀ a b, edge g a b → before a b O) as Hedges.
  { intros a b Hab. apply Hord; [done|]. by eapply Hall, Hclosed. }
  split_and!; [|..|done|done|done].
  - intros ->. destruct sources as [|s ?] eqn:Hs; [simpl in Hsrc; lia|].
    assert (s ∈ sources) as Hin by (rewrite Hs; apply list_elem_of_here).
    unfold sources in Hin. by apply elem_of_sources in Hin as [?%elem_of_nil _].
  - intros [v Hv]. by eapply before_irrefl, before_tc.
Qed.

(** X10. [topoSort] returns an ordering only on graphs that are not empty
    and have no cycle: on a graph that was built, whatever it returns
    holds every node once, each after all the nodes with an edge into
    it, and the graph then has a node and no cycle. *)
Theorem topoSort_returns calls (ordering : list T) :
  topoSort (build calls) = Ok ordering →
  build calls ≠ [] ∧ acyclic (build calls)
  ∧ NoDup ordering
  ∧ (∀ v, v ∈ ordering ↔ node (build calls) v)
  ∧ (∀ a b, edge (build calls) a b → before a b ordering).
Proof.
  apply topoSort_sound; [apply well_formed_build | apply closed_build].
Qed.

(** X11. On a graph that was built, has a node of in-degree zero and has a
    cycle, [topoSort] passes its first assertion and fails the second,
    the comparison of the lengths. *)
Theorem topoSort_cycle calls :
  (∃ v, node (build calls) v ∧ in_degree (build calls) v = 0) →
  cyclic (build calls) →
  topoSort (build calls) = Throw (AssertionError has_cycle).
Proof.
  intros (v & Hv & Hz) Hcyclic.
  pose proof (well_formed_build calls) as Hwf. pose proof (closed_build calls) as Hcl.
  destruct (topoSort (build calls)) as [ordering|e] eqn:Htopo.
  { by destruct (topoSort_sound _ _ Hwf Hcl Htopo) as (_ & Hacyclic & _). }
  revert Htopo. unfold topoSort. cbv zeta.
  rewrite decide_True.
  - by destruct (decide (length _ = length _)); intros [= <-].
  - assert (v ∈ (filter (λ e, e.2 = Int 0) (indegrees (build calls))).*1) as Hin
      by (by apply elem_of_sources).
    destruct ((filter _ _).*1); [by apply elem_of_nil in Hin | simpl; lia].
Qed.

Lemma map_set_fresh {V} (m : list (T * V)) k v :
  k ∉ map_keys m → map_set m k v = m ++ [(k, v)].
Proof.
  unfold map_keys. induction m as [|[k' v'] m IH]; csimpl; [done|].
  intros [??]%not_elem_of_cons. rewrite decide_False by done. by rewrite IH.
Qed.

Lemma fmap_fst_pair {A B} (f : A → T) (h : A → B) (l : list A) :
  ((λ x, (f x, h x)) <$> l).*1 = f <$> l.
Proof. induction l as [|x l IH]; csimpl; [done | by rewrite IH]. Qed.

(** Calls without destinations, each for a new source, build the map of
    their sources, in order, each with an empty set. *)
Lemma build_edgeless calls :
  Forall (λ c, c.2 = []) calls → NoDup calls.*1 →
  build calls = (λ c : T * list T, (c.1, @nil T)) <$> calls.
Proof.
  induction calls as [|[from to] calls IH] using rev_ind; intros Hto Hnd; [done|].
  apply Forall_app in Hto as [Hto [Hfrom _]%Forall_cons]. simpl in Hfrom. subst to.
  rewrite fmap_app in Hnd. apply NoDup_app in Hnd as (Hnd & Hfresh & _).
  rewrite build_snoc, fmap_app, IH by done. simpl.
  assert (from ∉ map_keys ((λ c : T * list T, (c.1, @nil T)) <$> calls)) as Hnew.
  { unfold map_keys. rewrite (fmap_fst_pair fst (λ _, [])). intros Hin.
    apply (Hfresh from Hin). csimpl. apply list_elem_of_here. }
  unfold addAll. rewrite (proj2 (map_get_None_key _ from) Hnew).
  set (m := (λ c : T * list T, (c.1, @nil T)) <$> calls) in *.
  rewrite (map_set_fresh m from []) by done.
  unfold ensureAll, Sets.addAll. cbn [foldl].
  apply map_set_same. rewrite <-(map_set_fresh m from []) by done.
  by rewrite map_get_set, decide_True.
Qed.

Lemma indegrees_edgeless (l : list T) :
  NoDup l → indegrees ((λ k : T, (k, @nil T)) <$> l) = (λ k : T, (k, Int 0)) <$> l.
Proof.
  induction l as [|k l IH] using rev_ind; intros Hnd; [done|].
  apply NoDup_app in Hnd as (Hnd & Hfresh & _).
  rewrite !fmap_app. simpl. rewrite indegrees_snoc, IH by done. simpl.
  assert (k ∉ map_keys ((λ k : T, (k, Int 0)) <$> l)) as Hnew.
  { unfold map_keys. rewrite (fmap_fst_pair id (λ _, Int 0)), list_fmap_id.
    intros Hin. apply (Hfresh k Hin), list_elem_of_here. }
  unfold map_has. rewrite bool_decide_false
    by (rewrite (proj2 (map_get_None_key _ k) Hnew); by intros [? [=]]).
  by apply map_set_fresh.
Qed.

(** The loop of [topoSort] when no node of the work list has a
    neighbour: the work list is emitted from its end. *)
Lemma topoSort_loop_edgeless g (sources : list T) inDegrees ordering :
  (∀ n, n ∈ sources → default [] (map_get g n) = []) →
  while (topoSort_turn g) (topoSort_terminates g) (sources, inDegrees, ordering)
  = ordering ++ reverse sources.
Proof.
  revert ordering. induction sources as [|n S IH] using rev_ind; intros O Hnone.
  { rewrite while_unfold. simpl. by rewrite app_nil_r. }
  rewrite while_unfold. simpl. rewrite pop_snoc.
  rewrite Hnone by (apply elem_of_app; right; apply list_elem_of_here). simpl.
  rewrite IH by (intros m Hm; apply Hnone, elem_of_app; by left).
  by rewrite reverse_snoc, <-(assoc_L (++)).
Qed.

(** X12. Packages without dependencies are ordered last read, first out: for
    calls without destinations, one for each of several sources,
    [topoSort] returns the sources in the reverse of the order of the
    calls. *)
Theorem topoSort_edgeless calls :
  Forall (λ c, c.2 = []) calls → NoDup calls.*1 → calls ≠ [] →
  topoSort (build calls) = Ok (reverse calls.*1).
Proof.
  intros Hto Hnd Hne. rewrite build_edgeless by done.
  unfold topoSort. cbv zeta.
  replace ((λ c : T * list T, (c.1, [])) <$> calls)
    with ((λ k : T, (k, @nil T)) <$> calls.*1) by (by rewrite <-list_fmap_compose).
  rewrite indegrees_edgeless by done.
  assert ((filter (λ e : T * number, e.2 = Int 0) ((λ k : T, (k, Int 0)) <$> calls.*1)).*1
          = calls.*1) as ->.
  { generalize (calls.*1). intros l. induction l as [|k l IH]; [done|].
    rewrite fmap_cons, filter_cons_True by done. rewrite fmap_cons. by rewrite IH. }
  rewrite decide_True by (destruct calls; [done | simpl; lia]).
  rewrite topoSort_loop_edgeless.
  - rewrite decide_True; [done|]. simpl. by rewrite length_reverse, !length_fmap.
  - intros n Hn. destruct (map_get _ n) as [deps|] eqn:Hget; [|done].
    apply map_get_Some_elem_of, list_elem_of_fmap in Hget as (k & [= _ ->] & _). done.
Qed.
End TopoSortMore.

(** ** The selection made by [main]: what depends on the entrypoint *)

Section Dependents.
Context {T : Type} `{EqDecision T}.
Implicit Types g : list (T * list T).

Lemma tc_sub (R1 R2 : relation T) x y :
  (∀ x y, R1 x y → R2 x y) → tc R1 x y → tc R2 x y.
Proof.
  intros Hsub. induction 1 as [x y ?|x y z ? _ IH]; [by apply tc_once, Hsub|].
  eapply tc_l; [by apply Hsub | done].
Qed.

(** Reaching in the inverted graph is being reached in the graph. *)
Lemma reachable_invert g (a b : T) :
  NoDup (map_keys g) → reachable (invert g) a b ↔ reachable g b a.
Proof.
  intros Hg. unfold reachable. split.
  - induction 1 as [|a x b Hax _ IH]; [done|].
    eapply rtc_r; [done|]. by apply edge_invert.
  - induction 1 as [|b x a Hbx _ IH]; [done|].
    eapply rtc_r; [done|]. by apply edge_invert.
Qed.

(** [walk] in the inverted graph, from a key: the nodes from which the
    key can be reached. *)
Lemma walk_invert g (e : T) :
  well_formed g → closed g → node g e →
  ∃ keep, walk (invert g) e = Ok keep ∧ ∀ v, v ∈ keep ↔ reachable g v e.
Proof.
  intros [Hkeys _] Hclosed He.
  destruct (walk_closed (invert g) e) as (keep & Hwalk & _ & Hkeep);
    [apply closed_invert | by apply node_invert |].
  exists keep. split; [done|]. intros v. by rewrite Hkeep, reachable_invert.
Qed.

Lemma reachable_node g (v e : T) : reachable g v e → node g e → node g v.
Proof.
  intros Hve He. destruct Hve as [|v x e Hvx _]; [done | by eapply edge_node_l].
Qed.

(** In the subgraph of what reaches [e], everything still reaches [e]. *)
Lemma reachable_subgraph g keep (v e : T) :
  NoDup (map_keys g) → (∀ v, v ∈ keep ↔ reachable g v e) →
  reachable (subgraph g keep) v e ↔ reachable g v e.
Proof.
  intros Hg Hkeep. unfold reachable. split.
  - apply rtc_subrel. intros a b Hab. by apply edge_subgraph in Hab as [? _].
  - revert v. apply rtc_ind_l; [done|]. intros x y Hxy Hye IH.
    eapply rtc_l; [|done]. apply edge_subgraph; [done|].
    split_and!; [done | |]; apply Hkeep; [by eapply rtc_l | done].
Qed.

(** [topoSort] on the subgraph of what reaches a key [e] of an acyclic
    graph: it returns those nodes, each after the nodes with an edge into
    it, and [e] last. *)
Lemma topoSort_subgraph g keep (e : T) :
  well_formed g → closed g → acyclic g → node g e →
  (∀ v, v ∈ keep ↔ reachable g v e) →
  ∃ ordering,
    topoSort (subgraph g keep) = Ok ordering
    ∧ NoDup ordering
    ∧ (∀ v, v ∈ ordering ↔ reachable g v e)
    ∧ (∀ a b, edge g a b → reachable g b e → before a b ordering)
    ∧ last ordering = Some e.
Proof.
  intros Hwf Hclosed Hacyclic He Hkeep. pose proof Hwf as [Hkeys _].
  assert (∀ v, node (subgraph g keep) v ↔ reachable g v e) as Hnodes.
  { intros v. rewrite node_subgraph, Hkeep by done.
    split; [by intros [_ ?] | intros ?; split; [by eapply reachable_node | done]]. }
  destruct (topoSort_acyclic (subgraph g keep))
    as (O & Htopo & Hnd & HO & Hord & _).
  { apply well_formed_subgraph. }
  { apply closed_subgraph. }
  { intros Hnil. assert (node (subgraph g keep) e) as Hin by (by apply Hnodes).
    rewrite Hnil in Hin. by apply elem_of_nil in Hin. }
  { intros [v Hv]. apply Hacyclic. exists v. revert Hv. apply tc_sub.
    intros a b Hab. by apply edge_subgraph in Hab as [? _]. }
  exists O. split_and!; [done | done | | |].
  - intros v. by rewrite HO.
  - intros a b Hab Hb. apply Hord, edge_subgraph; [done|].
    split_and!; [done | |]; apply Hkeep; [by eapply rtc_l | done].
  - assert (e ∈ O) as HeO by (by apply HO, Hnodes).
    destruct O as [|x O _] using rev_ind; [by apply elem_of_nil in HeO|].
    rewrite last_snoc. f_equal.
    destruct (decide (x = e)) as [|Hne]; [done|].
    assert (reachable (subgraph g keep) x e) as Hxe.
    { apply reachable_subgraph; [done..|]. apply Hnodes, HO.
      apply elem_of_app. right. apply list_elem_of_here. }
    apply rtc_tc in Hxe as [?|Hxe]; [done|].
    apply (before_tc _ (O ++ [x])) in Hxe as (i & j & Hi & Hj & Hij); [|done..].
    assert ((O ++ [x]) !! length O = Some x) as Hlast
      by (by rewrite lookup_app_r, Nat.sub_diag).
    pose proof (NoDup_lookup _ _ _ _ Hnd Hi Hlast).
    apply lookup_lt_Some in Hj. rewrite length_app in Hj. simpl in Hj. lia.
Qed.
End Dependents.

(** ** [isCyclic] on graphs without converging edges *)

Section IsCyclicMore.
Context {T : Type} `{EqDecision T}.
Implicit Types g calls : list (T * list T).

(** The nodes a walk has put on its work list: the children of its root
    and the children of what it has seen. *)
Definition enqueued g (root : T) (seen : list T) : list T :=
  default [] (map_get g root) ++ (seen ≫= λ p, default [] (map_get g p)).

Lemma occurrences_children g (x p : T) :
  well_formed g →
  length (filter (λ y, y = x) (default [] (map_get g p)))
  = if decide (edge g p x) then 1 else 0.
Proof.
  intros [_ Hsets]. destruct (map_get g p) as [deps|] eqn:Hget; simpl.
  2:{ rewrite decide_False; [done|]. intros (? & Hd & _). congruence. }
  specialize (Hsets p deps Hget).
  assert (edge g p x ↔ x ∈ deps) as Hedge.
  { split; [intros (? & Hd & ?); congruence | intros ?; by exists deps]. }
  rewrite (decide_ext _ _ _ _ Hedge). clear Hedge Hget.
  induction Hsets as [|y deps Hy Hnd IH]; [done|].
  rewrite filter_cons. destruct (decide (y = x)) as [->|Hne]; simpl.
  - rewrite decide_True by apply list_elem_of_here.
    rewrite filter_none; [done|]. by intros z Hz ->.
  - rewrite IH. apply decide_ext. rewrite elem_of_cons. intuition congruence.
Qed.

(** Distinct parents put a node on the work list no more often than its
    in-degree. *)
Lemma occurrences_in_degree g (x : T) (parents : list T) :
  well_formed g → NoDup parents →
  length (filter (λ y, y = x) (parents ≫= λ p, default [] (map_get g p)))
  ≤ in_degree g x.
Proof.
  intros Hwf Hnd. pose proof Hwf as [Hkeys _].
  assert (length (filter (λ y, y = x) (parents ≫= λ p, default [] (map_get g p)))
          = length (filter (λ p, edge g p x) parents)) as ->.
  { clear Hnd. induction parents as [|p ps IH]; [done|].
    cbn [mbind list_bind]. rewrite filter_app, length_app, IH, filter_cons.
    rewrite occurrences_children by done. by destruct (decide (edge g p x)). }
  unfold in_degree.
  rewrite <-(length_fmap (λ p, (p, default [] (map_get g p)))).
  apply submseteq_length, NoDup_submseteq.
  - assert (Inj (=) (=) (λ p : T, (p, default [] (map_get g p))))
      by (by intros ?? [= ?]).
    by apply NoDup_fmap_2, NoDup_filter.
  - intros e (p & -> & [(deps & Hget & Hx) _]%list_elem_of_filter)%list_elem_of_fmap.
    rewrite Hget. simpl. apply list_elem_of_filter. split; [done|].
    by apply elem_of_map_get.
Qed.

(** What every turn of a walk of [isCyclic] from the key [root] keeps:
    the seen nodes followed by the waiting ones are, up to their order,
    the nodes that were put on the work list; no node was seen twice; and
    all of them can be reached from [root] along one edge or more. *)
Definition isCyclic_forest_invariant g (root : T) (st : list T * list T) : Prop :=
  st.2 ++ st.1 ≡ₚ enqueued g root st.2
  ∧ NoDup st.2
  ∧ (∀ v, v ∈ st.2 ++ st.1 → tc (edge g) root v).

Lemma tc_node g (a b : T) : closed g → tc (edge g) a b → node g b.
Proof.
  intros Hclosed. induction 1 as [a b ?|a b c _ _ IH]; [by eapply Hclosed | done].
Qed.

Lemma isCyclic_forest_turn g root st :
  well_formed g → closed g → acyclic g →
  (∀ v, node g v → in_degree g v ≤ 1) →
  isCyclic_forest_invariant g root st →
  match isCyclic_turn g st with
  | inl st' => isCyclic_forest_invariant g root st'
  | inr r => r ≠ None
  end.
Proof.
  intros Hwf Hclosed Hacyclic Hdeg. destruct st as [[|x Q] seen].
  { by intros _. }
  intros (Hperm & Hnd & Hreach). simpl in *.
  assert (root ∉ seen) as Hroot.
  { intros Hin. apply Hacyclic. exists root. apply Hreach, elem_of_app. by left. }
  assert (x ∉ seen) as Hx.
  { intros Hin.
    assert (2 ≤ length (filter (λ y, y = x) (seen ++ x :: Q))) as Htwice.
    { rewrite filter_app, length_app, filter_cons_True by done. simpl.
      apply list_elem_of_split in Hin as (l1 & l2 & ->).
      rewrite filter_app, length_app, filter_cons_True by done. simpl. lia. }
    rewrite Hperm in Htwice.
    change (enqueued g root seen)
      with ((root :: seen) ≫= λ p, default [] (map_get g p)) in Htwice.
    assert (NoDup (root :: seen)) as Hparents by (by apply NoDup_cons).
    pose proof (occurrences_in_degree g x (root :: seen) Hwf Hparents) as Hle.
    assert (node g x) as Hnode.
    { eapply tc_node; [done|]. apply Hreach, elem_of_app. by left. }
    specialize (Hdeg x Hnode). lia. }
  unfold set_has. rewrite bool_decide_false by done.
  assert (set_add seen x = seen ++ [x]) as ->
    by (unfold set_add, set_has; by rewrite bool_decide_false).
  assert (NoDup (seen ++ [x])) as Hnd'.
  { apply NoDup_app. split_and!; [done| |apply NoDup_singleton].
    by intros y Hy ->%list_elem_of_singleton. }
  assert (tc (edge g) root x) as Hrx
    by (apply Hreach, elem_of_app; right; apply list_elem_of_here).
  assert ((seen ++ [x]) ++ Q ++ default [] (map_get g x)
          ≡ₚ enqueued g root (seen ++ [x])) as Hperm'.
  { unfold enqueued in *. rewrite bind_app. cbn [mbind list_bind].
    rewrite app_nil_r, (assoc_L (++) _ (seen ≫= _)), <-Hperm.
    by rewrite <-!(assoc_L (++)). }
  assert (∀ v, v ∈ (seen ++ [x]) ++ Q ++ default [] (map_get g x)
               → tc (edge g) root v) as Hreach'.
  { intros v. rewrite !elem_of_app, list_elem_of_singleton.
    intros [[?| ->]|[?|Hv]]; [| done | |].
    - apply Hreach, elem_of_app. by left.
    - apply Hreach, elem_of_app. right. by apply list_elem_of_further.
    - eapply tc_r; [done|]. destruct (map_get g x) as [deps|] eqn:Hget.
      + by exists deps.
      + by apply elem_of_nil in Hv. }
  destruct (map_get g x) as [children|] eqn:Hget; simpl in *.
  - by split_and!.
  - rewrite app_nil_r in Hperm', Hreach'. by split_and!.
Qed.

(** [isCyclic] on a graph without a cycle in which no two edges end at the
    same node returns [false]. *)
Lemma isCyclic_forest g :
  well_formed g → closed g → acyclic g →
  (∀ v, node g v → in_degree g v ≤ 1) →
  isCyclic g = Ok false.
Proof.
  intros Hwf Hclosed Hacyclic Hdeg. unfold isCyclic.
  assert (∀ k, k ∈ map_keys g → node g k) as Hkeys by done.
  revert Hkeys. generalize (map_keys g). generalize (@nil T).
  intros seenAll keys. revert seenAll.
  induction keys as [|k keys IH]; intros seenAll Hkeys; simpl; [done|].
  assert (∀ k', k' ∈ keys → node g k') as Hkeys'
    by (intros k' ?; by apply Hkeys, list_elem_of_further).
  destruct (set_has seenAll k); [by apply IH|].
  destruct (proj1 (node_is_Some g k)) as [children Hget];
    [apply Hkeys, list_elem_of_here|]. rewrite Hget.
  pose proof (while_rule (isCyclic_turn g) (isCyclic_forest_invariant g k)
                (λ r, r ≠ None) (isCyclic_terminates g)
                (λ st, isCyclic_forest_turn g k st Hwf Hclosed Hacyclic Hdeg)
                (children, [])) as Hwalk.
  destruct (while _ _ _) as [seenThis|]; [by apply IH|].
  destruct Hwalk; [|done]. unfold isCyclic_forest_invariant, enqueued.
  rewrite Hget. simpl. rewrite app_nil_r. split_and!; [done | apply NoDup_nil_2 |].
  intros v Hv. apply tc_once. by exists children.
Qed.

(** X1. [isCyclic] returns [true] on every graph that has a cycle, a
    self-loop included; it misses none. *)
Theorem isCyclic_detects_cycles g : cyclic g → isCyclic g = Ok true.
Proof. apply isCyclic_cyclic. Qed.

(** X2. On a graph that was built, has no cycle and has no node of in-degree
    above 1 (chains and trees of dependencies), [isCyclic] returns
    [false]. *)
Theorem isCyclic_no_converging calls :
  acyclic (build calls) →
  (∀ v, node (build calls) v → in_degree (build calls) v ≤ 1) →
  isCyclic (build calls) = Ok false.
Proof. apply isCyclic_forest; [apply well_formed_build | apply closed_build]. Qed.
End IsCyclicMore.

(** ** [parseCliArgs], [printAsGraphVis] and [main] *)

Section Main.
Open Scope string_scope.
Implicit Types manifests : list (string * list string).

Lemma entrypoint_subgraph_found manifests (entrypoint : string) :
  node (build manifests) entrypoint →
  ∃ keep,
    (∀ v, v ∈ keep ↔ reachable (build manifests) v entrypoint)
    ∧ entrypoint_subgraph (build manifests) entrypoint
      = Ok (subgraph (build manifests) keep).
Proof.
  intros He.
  destruct (walk_invert (build manifests) entrypoint) as (keep & Hwalk & Hkeep);
    [apply well_formed_build | apply closed_build | done |].
  exists keep. split; [done|]. unfold entrypoint_subgraph, map_has.
  rewrite bool_decide_true by (by apply node_is_Some). cbv zeta. by rewrite Hwalk.
Qed.

(** X5. The selection of [main] for an entrypoint that is a key: it cannot
    fail, and it yields the graph whose nodes are the packages from which
    the entrypoint can be reached, with the edges of the graph between
    them. *)
Theorem entrypoint_subgraph_dependents manifests (entrypoint : string) :
  node (build manifests) entrypoint →
  ∃ graph,
    entrypoint_subgraph (build manifests) entrypoint = Ok graph
    ∧ (∀ v, node graph v ↔ reachable (build manifests) v entrypoint)
    ∧ (∀ a b, edge graph a b
              ↔ edge (build manifests) a b ∧ reachable (build manifests) b entrypoint).
Proof.
  intros He. destruct (entrypoint_subgraph_found manifests entrypoint He)
    as (keep & Hkeep & Hsub).
  pose proof (well_formed_build manifests) as [Hkeys _].
  exists (subgraph (build manifests) keep). split_and!; [done| |].
  - intros v. rewrite node_subgraph, Hkeep by (done || apply closed_build).
    split; [by intros [_ ?] | intros ?; split; [by eapply reachable_node | done]].
  - intros a b. rewrite edge_subgraph, !Hkeep by done. split.
    + by intros (? & _ & ?).
    + intros [Hab Hb]. split_and!; [done | by eapply rtc_l | done].
Qed.

(** X6. An entrypoint that is no key of the graph ends [main] with the error
    that says so, before anything is printed. *)
Theorem main_missing_entrypoint argv manifests debug entrypoint mode :
  parseCliArgs argv = Ok (debug, entrypoint, mode) →
  ¬ node (build manifests) entrypoint →
  main argv manifests = Throw (Error ("could not find " +:+ entrypoint)).
Proof.
  intros Hargs He. unfold main. rewrite Hargs. simpl.
  unfold entrypoint_subgraph, map_has.
  by rewrite bool_decide_false by (by rewrite <-node_is_Some).
Qed.

(** X7. In the mode [topo], on manifests without a cycle and for an
    entrypoint that is a key, [main] prints one text: the packages from
    which the entrypoint can be reached, one on a line, each once and
    before the packages it depends on, the entrypoint last. *)
Theorem main_topo argv manifests debug entrypoint :
  parseCliArgs argv = Ok (debug, entrypoint, Mode.TOPO) →
  node (build manifests) entrypoint →
  acyclic (build manifests) →
  ∃ ordering,
    main argv manifests = Ok [String.concat newline ordering]
    ∧ NoDup ordering
    ∧ (∀ v, v ∈ ordering ↔ reachable (build manifests) v entrypoint)
    ∧ (∀ a b, edge (build manifests) a b →
              reachable (build manifests) b entrypoint → before a b ordering)
    ∧ last ordering = Some entrypoint.
Proof.
  intros Hargs He Hacyclic.
  destruct (entrypoint_subgraph_found manifests entrypoint He)
    as (keep & Hkeep & Hsub).
  destruct (topoSort_subgraph (build manifests) keep entrypoint)
    as (ordering & Htopo & Hrest);
    [apply well_formed_build | apply closed_build | done..|].
  exists ordering. split; [|done].
  unfold main. rewrite Hargs. simpl. rewrite Hsub. simpl. by rewrite Htopo.
Qed.

(** X8. In the mode [viz], for an entrypoint that is a key, [main] prints
    the rendering of the selected graph and nothing else; it does not
    sort, so a cycle among the packages does not stop it. *)
Theorem main_viz argv manifests debug entrypoint :
  parseCliArgs argv = Ok (debug, entrypoint, Mode.VIZ) →
  node (build manifests) entrypoint →
  ∃ graph,
    entrypoint_subgraph (build manifests) entrypoint = Ok graph
    ∧ main argv manifests = Ok [printAsGraphVis graph].
Proof.
  intros Hargs He.
  destruct (entrypoint_subgraph_found manifests entrypoint He)
    as (keep & _ & Hsub).
  exists (subgraph (build manifests) keep). split; [done|].
  unfold main. rewrite Hargs. simpl. by rewrite Hsub.
Qed.

(** X17. The flag [--debug] may stand anywhere after the program's name, and
    more than once: the other arguments are read as if it were not
    there. *)
Theorem parseCliArgs_debug (node_path script : string) (front back : list string) :
  parseCliArgs (node_path :: script :: (front ++ "--debug" :: back)%list)
  = match parseCliArgs
            (node_path :: script
             :: filter (λ arg, arg ≠ "--debug") (front ++ back)%list)
    with
    | Ok (_, entrypoint, mode) => Ok (true, entrypoint, mode)
    | Throw e => Throw e
    end.
Proof.
  unfold parseCliArgs. cbn [drop]. rewrite !drop_0.
  rewrite bool_decide_true
    by (apply elem_of_app; right; apply list_elem_of_here).
  rewrite (bool_decide_false ("--debug" ∈ filter _ _))
    by (by intros [? _]%list_elem_of_filter).
  rewrite !filter_app, filter_cons_False by (by intros ?).
  destruct ((filter _ front ++ filter _ back)%list !! 0) as [entrypoint|]; [|done].
  destruct ((filter _ front ++ filter _ back)%list !! 1) as [modeRaw|]; [|done].
  by repeat case_decide.
Qed.
(** X9. With no mode argument, for an entrypoint that is a key, [main]
    returns without having printed anything: the mode is [Mode.ALL],
    which passes neither test. *)
Theorem main_without_mode (node_path script entrypoint : string) manifests :
  entrypoint ≠ "--debug" →
  node (build manifests) entrypoint →
  main [node_path; script; entrypoint] manifests = Ok [].
Proof.
  intros Hflag He.
  destruct (entrypoint_subgraph_found manifests entrypoint He)
    as (keep & _ & Hsub).
  unfold main, parseCliArgs. cbn [drop].
  rewrite bool_decide_false
    by (intros ?%list_elem_of_singleton; by apply Hflag).
  simpl. by rewrite Hsub.
Qed.

Lemma string_app_assoc (a b c : string) : (a +:+ b) +:+ c = a +:+ b +:+ c.
Proof.
  induction a as [|x a IH]; [done|].
  change (String x ((a +:+ b) +:+ c) = String x (a +:+ b +:+ c)). by rewrite IH.
Qed.

Lemma string_app_nil_r (a : string) : a +:+ "" = a.
Proof.
  induction a as [|x a IH]; [done|].
  change (String x (a +:+ "") = String x a). by rewrite IH.
Qed.

(** Lines of text, each ended by a newline. *)
Definition unlines (lines : list string) : string :=
  foldr (λ l text, l +:+ newline +:+ text) "" lines.

(** The line that declares a node and the line that declares an edge. *)
Definition node_line (pkg : string) : string :=
  "  " +:+ quote +:+ pkg +:+ quote.

Definition edge_line (pkg dep : string) : string :=
  "  " +:+ quote +:+ pkg +:+ quote +:+ " -> " +:+ quote +:+ dep +:+ quote.

(** The lines of the rendering: the opening of the block, for each key in
    the order of the map its declaration and then one line for each of
    its edges in the order of its set, and the closing. *)
Definition graph_lines (g : list (string * list string)) : list string :=
  ("digraph G {"
   :: (g ≫= λ e, node_line e.1 :: (edge_line e.1 <$> e.2)) ++ ["}"])%list.

Lemma unlines_app (l k : list string) :
  unlines (l ++ k)%list = unlines l +:+ unlines k.
Proof.
  induction l as [|x l IH]; [done|]. cbn [app unlines foldr]. fold (unlines (l ++ k)%list).
  fold (unlines l). by rewrite IH, !string_app_assoc.
Qed.

Lemma print_edges (out pkg : string) (deps : list string) :
  foldl (λ out dep, out +:+ ("  " +:+ quote +:+ pkg +:+ quote +:+ " -> "
                             +:+ quote +:+ dep +:+ quote) +:+ newline) out deps
  = out +:+ unlines (edge_line pkg <$> deps).
Proof.
  revert out. induction deps as [|dep deps IH]; intros out; cbn [foldl fmap list_fmap].
  - by rewrite string_app_nil_r.
  - rewrite IH. cbn [unlines foldr]. fold (unlines (edge_line pkg <$> deps)).
    unfold edge_line. by rewrite !string_app_assoc.
Qed.

(** X18. [printAsGraphVis()] yields the lines of the rendering, each ended by
    a newline: a node is declared once, and its edges follow it. *)
Theorem printAsGraphVis_lines (g : list (string * list string)) :
  printAsGraphVis g = unlines (graph_lines g).
Proof.
  unfold printAsGraphVis, graph_lines. cbv zeta.
  cbn [unlines foldr]. fold (unlines ((g ≫= λ e, node_line e.1 :: (edge_line e.1 <$> e.2)) ++ ["}"])%list).
  rewrite unlines_app.
  assert (∀ out,
    foldl (λ out '(pkg, deps),
             foldl (λ out dep, out +:+ ("  " +:+ quote +:+ pkg +:+ quote +:+ " -> "
                                        +:+ quote +:+ dep +:+ quote) +:+ newline)
                   (out +:+ ("  " +:+ quote +:+ pkg +:+ quote) +:+ newline) deps)
          out g
    = out +:+ unlines (g ≫= λ e, node_line e.1 :: (edge_line e.1 <$> e.2))) as Hloop.
  { induction g as [|[pkg deps] g IH]; intros out; cbn [foldl].
    - by rewrite string_app_nil_r.
    - rewrite IH, print_edges. cbn [mbind list_bind fst snd].
      rewrite unlines_app. cbn [unlines foldr]. fold (unlines (edge_line pkg <$> deps)).
      unfold node_line. by rewrite !string_app_assoc. }
  rewrite Hloop. cbn [unlines foldr].
  by rewrite !string_app_assoc, string_app_nil_r.
Qed.
End Main.

(** ** Instances *)

Section Instances.
Open Scope string_scope.

Ltac by_evaluation := apply (bool_decide_unpack _); vm_compute; exact I.

(** Two packages that depend on each other, and a third that depends on
    one of them and on which nothing depends. *)
Definition entered_manifests : list (string * list string) :=
  [("z", ["x"]); ("x", ["y"]); ("y", ["x"])].

(** Three packages without dependencies. *)
Definition edgeless_manifests : list (string * list string) :=
  [("a", []); ("b", []); ("c", [])].

Lemma mutual_cyclic : cyclic (build mutual_manifests).
Proof.
  exists "x". apply (tc_l _ "x" "y" "x"); [|apply tc_once]; by_evaluation.
Defined.

Lemma entered_cyclic : cyclic (build entered_manifests).
Proof.
  exists "x". apply (tc_l _ "x" "y" "x"); [|apply tc_once]; by_evaluation.
Defined.

Lemma isCyclic_detects_cycles_witness :
  cyclic (build mutual_manifests) ∧ isCyclic (build mutual_manifests) = Ok true.
Proof.
  split; [apply mutual_cyclic|].
  apply (isCyclic_detects_cycles (build mutual_manifests)), mutual_cyclic.
Defined.

(** A chain of three packages. *)
Definition chain_manifests : list (string * list string) :=
  [("a", ["b"]); ("b", ["c"])].

Lemma isCyclic_no_converging_witness :
  acyclic (build chain_manifests)
  ∧ (∀ v, node (build chain_manifests) v
          → (in_degree (build chain_manifests) v ≤ 1)%nat)
  ∧ isCyclic (build chain_manifests) = Ok false.
Proof.
  assert (acyclic (build chain_manifests)) as Hacyclic.
  { apply (acyclic_forward _ (position ["a"; "b"; "c"])). by_evaluation. }
  assert (∀ v, node (build chain_manifests) v
               → (in_degree (build chain_manifests) v ≤ 1)%nat) as Hdeg.
  { intros v Hv. change (v ∈ ["a"; "b"; "c"]) in Hv.
    apply elem_of_cons in Hv as [->|Hv]; [by_evaluation|].
    apply elem_of_cons in Hv as [->|Hv]; [by_evaluation|].
    apply elem_of_cons in Hv as [->|Hv]; [by_evaluation|].
    by apply elem_of_nil in Hv. }
  split_and!; [done..|]. by apply (isCyclic_no_converging chain_manifests).
Defined.

Lemma topoSort_returns_witness :
  topoSort (build readme_manifests) = Ok ["one"; "three"; "two"; "four"]
  ∧ build readme_manifests ≠ [] ∧ acyclic (build readme_manifests)
  ∧ NoDup ["one"; "three"; "two"; "four"]
  ∧ (∀ v, v ∈ ["one"; "three"; "two"; "four"] ↔ node (build readme_manifests) v)
  ∧ (∀ a b, edge (build readme_manifests) a b
            → before a b ["one"; "three"; "two"; "four"]).
Proof.
  assert (topoSort (build readme_manifests) = Ok ["one"; "three"; "two"; "four"])
    as Htopo by reflexivity.
  split; [done|].
  by apply (topoSort_returns readme_manifests ["one"; "three"; "two"; "four"]).
Defined.

Lemma topoSort_cycle_witness :
  (∃ v, node (build entered_manifests) v ∧ in_degree (build entered_manifests) v = 0)
  ∧ cyclic (build entered_manifests)
  ∧ topoSort (build entered_manifests) = Throw (AssertionError has_cycle).
Proof.
  assert (∃ v, node (build entered_manifests) v
               ∧ in_degree (build entered_manifests) v = 0) as Hsource.
  { exists "z". split; [by_evaluation | reflexivity]. }
  split_and!; [done | apply entered_cyclic |].
  apply (topoSort_cycle entered_manifests); [done | apply entered_cyclic].
Defined.

Lemma topoSort_edgeless_witness :
  Forall (λ c : string * list string, c.2 = []) edgeless_manifests
  ∧ NoDup edgeless_manifests.*1
  ∧ edgeless_manifests ≠ []
  ∧ topoSort (build edgeless_manifests) = Ok ["c"; "b"; "a"].
Proof.
  assert (Forall (λ c : string * list string, c.2 = []) edgeless_manifests)
    as Hto by by_evaluation.
  assert (NoDup edgeless_manifests.*1) as Hnd by by_evaluation.
  assert (edgeless_manifests ≠ []) as Hne by discriminate.
  split_and!; [done..|].
  by apply (topoSort_edgeless edgeless_manifests).
Defined.

Lemma entrypoint_subgraph_dependents_witness :
  node (build readme_manifests) "four"
  ∧ ∃ graph,
      entrypoint_subgraph (build readme_manifests) "four" = Ok graph
      ∧ (∀ v, node graph v ↔ reachable (build readme_manifests) v "four")
      ∧ (∀ a b, edge graph a b
                ↔ edge (build readme_manifests) a b
                  ∧ reachable (build readme_manifests) b "four").
Proof.
  assert (node (build readme_manifests) "four") as Hnode by by_evaluation.
  split; [done|]. by apply (entrypoint_subgraph_dependents readme_manifests "four").
Defined.

Lemma main_missing_entrypoint_witness :
  parseCliArgs ["node"; "main.js"; "c"] = Ok (false, "c", Mode.ALL)
  ∧ ¬ node (build [("a", ["b"])]) "c"
  ∧ main ["node"; "main.js"; "c"] [("a", ["b"])]
    = Throw (Error "could not find c").
Proof.
  assert (parseCliArgs ["node"; "main.js"; "c"] = Ok (false, "c", Mode.ALL))
    as Hargs by reflexivity.
  assert (¬ node (build [("a", ["b"])]) "c") as Hnode by by_evaluation.
  split_and!; [done..|].
  by apply (main_missing_entrypoint ["node"; "main.js"; "c"] [("a", ["b"])]
              false "c" Mode.ALL).
Defined.

Lemma main_topo_witness :
  parseCliArgs ["node"; "main.js"; "four"; "topo"] = Ok (false, "four", Mode.TOPO)
  ∧ node (build readme_manifests) "four"
  ∧ acyclic (build readme_manifests)
  ∧ ∃ ordering,
      main ["node"; "main.js"; "four"; "topo"] readme_manifests
      = Ok [String.concat newline ordering]
      ∧ NoDup ordering
      ∧ (∀ v, v ∈ ordering ↔ reachable (build readme_manifests) v "four")
      ∧ (∀ a b, edge (build readme_manifests) a b →
                reachable (build readme_manifests) b "four" → before a b ordering)
      ∧ last ordering = Some "four".
Proof.
  assert (parseCliArgs ["node"; "main.js"; "four"; "topo"]
          = Ok (false, "four", Mode.TOPO)) as Hargs by reflexivity.
  assert (node (build readme_manifests) "four") as Hnode by by_evaluation.
  split_and!; [done | done | apply readme_acyclic |].
  apply (main_topo ["node"; "main.js"; "four"; "topo"] readme_manifests false "four");
    [done | done | apply readme_acyclic].
Defined.

Lemma main_viz_witness :
  parseCliArgs ["node"; "main.js"; "x"; "viz"] = Ok (false, "x", Mode.VIZ)
  ∧ node (build mutual_manifests) "x"
  ∧ ∃ graph,
      entrypoint_subgraph (build mutual_manifests) "x" = Ok graph
      ∧ main ["node"; "main.js"; "x"; "viz"] mutual_manifests
        = Ok [printAsGraphVis graph].
Proof.
  assert (parseCliArgs ["node"; "main.js"; "x"; "viz"] = Ok (false, "x", Mode.VIZ))
    as Hargs by reflexivity.
  assert (node (build mutual_manifests) "x") as Hnode by by_evaluation.
  split_and!; [done..|].
  by apply (main_viz ["node"; "main.js"; "x"; "viz"] mutual_manifests false "x").
Defined.

Lemma main_without_mode_witness :
  "four" ≠ "--debug"
  ∧ node (build readme_manifests) "four"
  ∧ main ["node"; "main.js"; "four"] readme_manifests = Ok [].
Proof.
  assert ("four" ≠ "--debug") as Hflag by discriminate.
  assert (node (build readme_manifests) "four") as Hnode by by_evaluation.
  split_and!; [done..|].
  by apply (main_without_mode "node" "main.js" "four" readme_manifests).
Defined.
End Instances.
